(** * Serving contract of the ResNet notebooks

    A shallow embedding of the two notebooks of the tutorial: the
    Estimator notebook ([preprocess_image], [resnet_model_fn],
    [create_servable_estimator_spec], [serving_input_receiver_fn]) and the
    Keras notebook ([preprocess_image], the prediction signature and the
    [SavedModelBuilder] export).

    Conventions.
    - A graph tensor is its static type together with the value it takes
      when the graph runs on a feed of the placeholders; building the graph
      and running it are kept apart, and a kernel that fails at run time
      becomes a [Raise] of the run.
    - The exported model is what [export_savedmodel] keeps of the graph the
      model function builds in [PREDICT] mode: the signatures of the
      export outputs and the tensors they return. A request is checked
      against the signature it names before the tensors run.
    - [tf.float32] is idealised by the real numbers [R]; [tf.uint8] is
      [byte]; [tf.string] elements are lists of bytes.
    - The TensorFlow and Keras operations the notebooks call
      ([tf.nn.top_k], [tf.nn.softmax], [tf.map_fn], [tf.reshape],
      [SavedModelBuilder], ...) follow their documented behaviour; the JPEG
      codec and the ResNet network are parameters. *)

From Stdlib Require Import Reals Lra Lia ZArith Strings.Byte Strings.Ascii.
From stdpp Require Import gmap strings list sorting pretty.

Set Default Proof Using "Type".

(** ** Errors raised while the graph runs *)

(** The operation that refuses its input; [PredictRequest] is the check
    of a request against the inputs of the signature it names. *)
Inductive kernel :=
  DecodeJpeg | TensorArrayStack | Reshape | TopKV2 | PredictRequest.

Inductive tf_error :=
| KeyError (key : string)
| TypeError
| ValueError (msg : string)
| InvalidArgumentError (op : kernel)
| UnimplementedError (op : kernel)
| FailedPreconditionError (msg : string)
| AssertionError (msg : string).

Inductive result (A : Type) :=
| Ok (a : A)
| Raise (e : tf_error).
Arguments Ok {A} a.
Arguments Raise {A} e.

#[export] Instance result_ret : MRet result := fun A a => Ok a.
#[export] Instance result_bind : MBind result := fun A B k m =>
  match m with
  | Ok a => k a
  | Raise e => Raise e
  end.

Fixpoint map_result {A B} (f : A -> result B) (l : list A) : result (list B) :=
  match l with
  | [] => Ok []
  | x :: l' => y ← f x ; ys ← map_result f l' ; Ok (y :: ys)
  end.

(** ** Tensors *)

Definition bytes := list byte.

Record tensor (A : Type) := Tensor { shape : list nat; data : list A }.
Arguments Tensor {A} shape data.
Arguments shape {A} t.
Arguments data {A} t.

Definition numel (s : list nat) : nat := foldr Nat.mul 1 s.
Arguments numel : simpl never.

Definition tensor_wf {A} (t : tensor A) : Prop :=
  length (data t) = numel (shape t).

Definition tensor_map {A B} (f : A -> B) (t : tensor A) : tensor B :=
  Tensor (shape t) (map f (data t)).

(** [tf.to_float] on a [uint8] value. *)
Definition to_float (v : byte) : R := IZR (Z.of_N (Byte.to_N v)).

(** Packing the results of [tf.map_fn]: the elements must agree on their
    shape, and the batch dimension comes first. With no element there is
    no shape to give the result, the shape of the elements being known
    only when the graph runs: packing is refused. *)
Fixpoint same_shape {A} (s : list nat) (ts : list (tensor A)) : bool :=
  match ts with
  | [] => true
  | t :: ts' => bool_decide (shape t = s) && same_shape s ts'
  end.

Definition pack {A} (ts : list (tensor A)) : result (tensor A) :=
  match ts with
  | [] => Raise (UnimplementedError TensorArrayStack)
  | t :: ts' =>
      if same_shape (shape t) ts'
      then Ok (Tensor (length ts :: shape t) (concat (map data ts)))
      else Raise (InvalidArgumentError TensorArrayStack)
  end.

(** [tf.map_fn fn elems]: [fn] on every element of [elems] along its first
    dimension, in order, the results packed. *)
Definition map_fn {A B} (fn : A -> result (tensor B)) (elems : list A)
  : result (tensor B) :=
  ts ← map_result fn elems ; pack ts.

(** [tf.stack] of one tensor on axis 0 is that tensor. *)
Definition stack {A} (t : tensor A) : tensor A := t.

(** [tf.reshape tensor shape], where one entry of [shape] may be [-1]. *)
Definition known_dims (s : list Z) : list nat :=
  Z.to_nat <$> filter (fun d => d ≠ (-1)%Z) s.

Definition wildcards (s : list Z) : nat :=
  length (filter (fun d => d = (-1)%Z) s).

Definition fill_dim (n : nat) (d : Z) : nat :=
  if decide (d = (-1)%Z) then n else Z.to_nat d.

Definition reshape {A} (t : tensor A) (s : list Z) : result (tensor A) :=
  let size := length (data t) in
  let known := numel (known_dims s) in
  match wildcards s with
  | 0 =>
      if decide (size = known)
      then Ok (Tensor (Z.to_nat <$> s) (data t))
      else Raise (InvalidArgumentError Reshape)
  | 1 =>
      if decide (known = 0) then Raise (InvalidArgumentError Reshape)
      else if decide (size `mod` known = 0)
      then Ok (Tensor (fill_dim (size `div` known) <$> s) (data t))
      else Raise (InvalidArgumentError Reshape)
  | _ => Raise (InvalidArgumentError Reshape)
  end.

(** The first [count] runs of [n] elements of [l]. *)
Fixpoint chunks {A} (n : nat) (count : nat) (l : list A) : list (list A) :=
  match count with
  | 0 => []
  | S count' => take n l :: chunks n count' (drop n l)
  end.

(** The elements of a tensor along its first dimension, one flat list
    each: the images of a batch tensor [[N; h; w; c]]. *)

Definition unstack {A} (t : tensor A) : list (list A) :=
  match shape t with
  | [] => []
  | n :: s => chunks (numel s) n (data t)
  end.

(** The elements of [l] at the positions [σ], in the order of [σ]. *)
Definition pick {A} (σ : list nat) (l : list A) : list A :=
  omap (fun i => l !! i) σ.

(** ** Scores and [tf.nn.top_k] *)

(** The order of a score type. [tf.nn.top_k] is defined for every real
    numeric dtype; the instances below are [Z] and [R]. *)
Class Score (A : Type) := {
  score_lt : relation A;
  score_lt_dec :: RelDecision score_lt;
  score_lt_strict :: StrictOrder score_lt;
  score_lt_trichotomy :: Trichotomy score_lt;
}.

#[export] Program Instance Z_score : Score Z := {| score_lt := Z.lt |}.
Next Obligation. intros x y. lia. Qed.

#[export] Program Instance R_score : Score R :=
  {| score_lt := Rlt; score_lt_dec := Rlt_dec |}.
Next Obligation. split; [intros x Hx; lra | intros x y z ??; lra]. Qed.
Next Obligation. intros x y. lra. Qed.

Section top_k.
Context `{Score A}.

(** A row entry is a score and its column. *)
Definition entry : Type := A * nat.

(** [x] comes before [y] in the result: a larger score, or the same score
    in a lower column. *)
Definition precedes (x y : entry) : Prop :=
  score_lt y.1 x.1 ∨ (x.1 = y.1 ∧ x.2 < y.2).

Definition columns (row : list A) : list entry :=
  imap (fun i v => (v, i)) row.

Fixpoint insert_desc (x : entry) (l : list entry) : list entry :=
  match l with
  | [] => [x]
  | y :: l' =>
      if decide (score_lt x.1 y.1) then y :: insert_desc x l' else x :: l
  end.

Fixpoint sort_desc (l : list entry) : list entry :=
  match l with
  | [] => []
  | x :: l' => insert_desc x (sort_desc l')
  end.

(** One row of [tf.nn.top_k]: the [k] largest entries, largest first, an
    entry of lower column first among equal scores. *)
Definition top_k_entries (row : list A) (k : nat) : list entry :=
  take k (sort_desc (columns row)).

Definition top_k_row (row : list A) (k : nat)
  : result (list A * list nat) :=
  if decide (k ≤ length row)
  then let es := top_k_entries row k in Ok (es.*1, es.*2)
  else Raise (InvalidArgumentError TopKV2).

(** What the reduction owes for one row: [k] columns with their scores,
    no column twice, in the order of [precedes], and no column left out
    that would come before a selected one. *)
Definition selects_top_k (row : list A) (k : nat)
    (values : list A) (indices : list nat) : Prop :=
  length values = k ∧ length indices = k ∧
  NoDup indices ∧
  (∀ j i, indices !! j = Some i → row !! i = values !! j) ∧
  StronglySorted precedes (zip values indices) ∧
  (∀ i v, row !! i = Some v → i ∉ indices →
     Forall (fun x => precedes x (v, i)) (zip values indices)).

(** [tf.nn.top_k input k] on a matrix: values and indices, row by row. *)
Definition top_k (input : list (list A)) (k : nat)
  : result (list (list A) * list (list nat)) :=
  rs ← map_result (fun row => top_k_row row k) input ;
  Ok (rs.*1, rs.*2).
End top_k.

(** ** [tf.nn.softmax] *)

Definition Rsum (l : list R) : R := foldr Rplus 0%R l.

Definition softmax_row (logits : list R) : list R :=
  let es := exp <$> logits in (fun e => e / Rsum es)%R <$> es.

(** [tf.nn.softmax logits]: along the last dimension. *)
Definition softmax (logits : list (list R)) : list (list R) :=
  softmax_row <$> logits.

(** ** Values fed to and fetched from the graph *)

Inductive value :=
| Strings (v : list bytes)
| Int32s (m : list (list nat))
| Floats (m : list (list R)).

(** [d[k]] on a Python dict. *)
Definition getitem {V} (d : gmap string V) (k : string) : result V :=
  match d !! k with
  | Some v => Ok v
  | None => Raise (KeyError k)
  end.

Definition as_strings (v : value) : result (list bytes) :=
  match v with
  | Strings xs => Ok xs
  | _ => Raise TypeError
  end.

(** ** Signatures of a SavedModel *)

Inductive DType := DT_STRING | DT_INT32 | DT_FLOAT.

#[export] Instance DType_eq_dec : EqDecision DType.
Proof. solve_decision. Defined.

(** Static type of a graph tensor; [None] is a dimension of any length. *)
Record TensorInfo := { dtype : DType; tensor_shape : list (option nat) }.

Record SignatureDef := {
  inputs : gmap string TensorInfo;
  outputs : gmap string TensorInfo;
  method_name : string;
}.

Definition PREDICT_METHOD_NAME : string := "tensorflow/serving/predict".

Definition predict_signature_def (inputs outputs : gmap string TensorInfo)
  : SignatureDef :=
  {| inputs := inputs; outputs := outputs;
     method_name := PREDICT_METHOD_NAME |}.

(** [tf.placeholder dtype shape]. *)
Definition placeholder (dtype : DType) (shape : list (option nat))
  : TensorInfo :=
  {| dtype := dtype; tensor_shape := shape |}.

(** A value has the static type [i]. *)
Definition dim_fits (d : option nat) (n : nat) : bool :=
  match d with
  | None => true
  | Some m => bool_decide (n = m)
  end.

Definition fits (v : value) (i : TensorInfo) : bool :=
  match v, dtype i, tensor_shape i with
  | Strings xs, DT_STRING, [d] => dim_fits d (length xs)
  | Int32s m, DT_INT32, [d; e] =>
      dim_fits d (length m) && forallb (fun r => dim_fits e (length r)) m
  | Floats m, DT_FLOAT, [d; e] =>
      dim_fits d (length m) && forallb (fun r => dim_fits e (length r)) m
  | _, _, _ => false
  end.

(** A tensor of the graph: its static type, and the value it takes when
    the graph runs on a feed of the placeholders. *)
Record graph_tensor := {
  static : TensorInfo;
  fetch : gmap string value -> result value;
}.

(** Static shapes, as the graph infers them. *)
Definition reshape_static (s : list Z) : list (option nat) :=
  (fun d => if decide (d = (-1)%Z) then None else Some (Z.to_nat d)) <$> s.

(** [tf.nn.top_k input k]: the last dimension becomes [k]; the indices
    are [int32]. *)
Definition top_k_static (input : TensorInfo) (k : nat)
  : TensorInfo * TensorInfo :=
  let s := take (length (tensor_shape input) - 1) (tensor_shape input)
           ++ [Some k] in
  ({| dtype := dtype input; tensor_shape := s |},
   {| dtype := DT_INT32; tensor_shape := s |}).

Definition softmax_static (logits : TensorInfo) : TensorInfo := logits.

(** Running several tensors on one feed. *)
Definition fetch_all (tensors : gmap string graph_tensor)
    (feed : gmap string value) : result (gmap string value) :=
  values ←
    map_result (fun '(key, t) => v ← fetch t feed; Ok (key, v))
      (map_to_list tensors);
  Ok (list_to_map values).

(** ** The Estimator notebook *)

Module Estimator.

Definition RESNET_SIZE : nat := 50.

Definition MODEL_DIR : string := "resnet_model_checkpoints".
Definition SERVING_DIR : string := "resnet_servable".

Definition _DEFAULT_IMAGE_SIZE : nat := 224.
Definition _NUM_CHANNELS : nat := 3.
Definition _LABEL_CLASSES : nat := 1001.

Definition TOP_K : nat := 5.

Inductive ModeKeys := TRAIN | EVAL | PREDICT.

#[export] Instance ModeKeys_eq_dec : EqDecision ModeKeys.
Proof. solve_decision. Defined.

Inductive data_format := channels_first | channels_last.

Record PredictOutput := { po_outputs : gmap string graph_tensor }.

Record EstimatorSpec := {
  mode : ModeKeys;
  predictions : gmap string graph_tensor;
  export_outputs : gmap string PredictOutput;
}.

Definition DEFAULT_SERVING_SIGNATURE_DEF_KEY : string := "serving_default".

(** A single export output is registered under the default key too. *)
Definition with_default_key (export_outputs : gmap string PredictOutput)
  : gmap string PredictOutput :=
  match map_to_list export_outputs with
  | [(key, value)] =>
      if decide (key = DEFAULT_SERVING_SIGNATURE_DEF_KEY)
      then export_outputs
      else <[DEFAULT_SERVING_SIGNATURE_DEF_KEY := value]> export_outputs
  | _ => export_outputs
  end.

(** [tf.estimator.EstimatorSpec mode predictions export_outputs], as the
    notebook calls it: without [loss] and without [train_op]. *)
Definition EstimatorSpec_new (mode : ModeKeys)
    (predictions : option (gmap string graph_tensor))
    (export_outputs : option (gmap string PredictOutput))
  : result EstimatorSpec :=
  match mode with
  | TRAIN => Raise (ValueError "Missing train_op.")
  | EVAL => Raise (ValueError "Missing loss.")
  | PREDICT =>
      match predictions with
      | None => Raise (ValueError "Missing predictions.")
      | Some predictions =>
          Ok {| mode := mode;
                predictions := predictions;
                export_outputs :=
                  with_default_key (default ∅ export_outputs) |}
      end
  end.

Record ServingInputReceiver := {
  features : gmap string graph_tensor;
  receiver_tensors : gmap string graph_tensor;
}.

(** Each placeholder is fed under the key it is listed with. *)
Definition build_raw_serving_input_receiver_fn
    (features : gmap string TensorInfo) : ServingInputReceiver :=
  let tensors :=
    map_imap (fun key i =>
                Some {| static := i;
                        fetch := fun feed => getitem feed key |})
      features in
  {| features := tensors; receiver_tensors := tensors |}.

Definition serving_input_receiver_fn : ServingInputReceiver :=
  build_raw_serving_input_receiver_fn
    {[ "images" := placeholder DT_STRING [None] ]}.

Definition create_servable_estimator_spec
    (predictions : gmap string graph_tensor) (mode : ModeKeys)
  : result EstimatorSpec :=
  EstimatorSpec_new mode (Some predictions)
    (Some {[ "predict" := {| po_outputs := predictions |} ]}).

(** What [export_savedmodel] keeps of the graph: the signatures, and for
    each of them the tensors it returns. *)
Record Servable := {
  signatures : gmap string SignatureDef;
  fetches : gmap string (gmap string graph_tensor);
}.

(** [estimator.export_savedmodel export_dir_base
    serving_input_receiver_fn], the directory apart: the model function
    builds the graph on the receiver's features in [PREDICT] mode, and
    every export output becomes a signature from the receiver tensors to
    its outputs. *)
Definition export_savedmodel
    (model_fn : gmap string graph_tensor -> option value -> ModeKeys
                -> result EstimatorSpec)
    (serving_input_receiver_fn : ServingInputReceiver) : result Servable :=
  spec ← model_fn (features serving_input_receiver_fn) None PREDICT;
  Ok {| signatures :=
          (fun output =>
             predict_signature_def
               (static <$> receiver_tensors serving_input_receiver_fn)
               (static <$> po_outputs output))
            <$> export_outputs spec;
        fetches := po_outputs <$> export_outputs spec |}.

(** A request fits a signature when it feeds exactly its inputs, each
    with a value of the input's type. *)
Definition request_fits (request : gmap string value)
    (signature : SignatureDef) : bool :=
  bool_decide (dom request = dom (inputs signature)) &&
  forallb (fun '(key, v) =>
             match inputs signature !! key with
             | Some i => fits v i
             | None => false
             end)
    (map_to_list request).

(** A call of a servable under a signature name. *)
Definition predict (servable : Servable) (signature_name : string)
    (request : gmap string value) : result (gmap string value) :=
  match signatures servable !! signature_name,
        fetches servable !! signature_name with
  | Some signature, Some outputs =>
      if request_fits request signature
      then fetch_all outputs request
      else Raise (InvalidArgumentError PredictRequest)
  | _, _ =>
      Raise (FailedPreconditionError "Serving signature key not found.")
  end.

Section model.
(** [tf.image.decode_jpeg contents channels]: the pixels of a JPEG
    stream as a [uint8] tensor [[height; width; channels]], or no result
    when the stream is not a JPEG image. *)
Variable decode_jpeg : bytes -> nat -> option (tensor byte).

(** [imagenet_resnet_v2 resnet_size num_classes data_format] of
    [resnet_model.py]: the network, from a batch [[N; 224; 224; 3]] and
    [is_training] to the logits, one row per image. *)
Variable imagenet_resnet_v2 :
  nat -> nat -> data_format -> tensor R -> bool -> list (list R).

(** The source's [height] and [width] arguments are never read. *)
Definition preprocess_image (encoded_image : bytes) : result (tensor R) :=
  match decode_jpeg encoded_image 3 with
  | None => Raise (InvalidArgumentError DecodeJpeg)
  | Some image =>
      Ok (tensor_map (fun v => to_float v / 255.0 - 0.5)%R image)
  end.

(** The tensors of the [predictions] dictionary. They are graph nodes:
    nothing runs, and nothing fails, until they are fetched. *)
Definition predictions_of (images : value) (mode : ModeKeys)
  : result (gmap string value) :=
  images ← as_strings images;
  processed_images ← map_fn preprocess_image images;
  let processed_images := stack processed_images in
  processed_images ←
    reshape processed_images
      [(-1)%Z; Z.of_nat _DEFAULT_IMAGE_SIZE;
       Z.of_nat _DEFAULT_IMAGE_SIZE; 3%Z];
  let network :=
    imagenet_resnet_v2 RESNET_SIZE _LABEL_CLASSES channels_last in
  let logits := network processed_images (bool_decide (mode = TRAIN)) in
  '(top_k_logits, top_k_classes) ← top_k logits TOP_K;
  let top_k_probs := softmax top_k_logits in
  Ok {[ "classes" := Int32s top_k_classes;
        "probabilities" := Floats top_k_probs ]}.

(** The static type of the network's logits: one row of [num_classes]
    scores for every element of the batch. *)
Definition network_static (num_classes : nat) (inputs : TensorInfo)
  : TensorInfo :=
  {| dtype := DT_FLOAT;
     tensor_shape := [default None (head (tensor_shape inputs));
                      Some num_classes] |}.

(** Building the graph: a missing feature or a feature that is no string
    tensor stops it in every mode; the tensors themselves run when they
    are fetched. *)
Definition resnet_model_fn (features : gmap string graph_tensor)
    (labels : option value) (mode : ModeKeys) : result EstimatorSpec :=
  images ← getitem features "images";
  _ ← (if decide (dtype (static images) = DT_STRING)
       then Ok () else Raise TypeError);
  let processed_images :=
    {| dtype := DT_FLOAT;
       tensor_shape :=
         reshape_static [(-1)%Z; Z.of_nat _DEFAULT_IMAGE_SIZE;
                         Z.of_nat _DEFAULT_IMAGE_SIZE; 3%Z] |} in
  let logits := network_static _LABEL_CLASSES processed_images in
  let '(top_k_logits, top_k_classes) := top_k_static logits TOP_K in
  let top_k_probs := softmax_static top_k_logits in
  let run key feed :=
    fed ← fetch images feed;
    values ← predictions_of fed mode;
    getitem values key in
  let predictions : gmap string graph_tensor :=
    {[ "classes" := {| static := top_k_classes; fetch := run "classes" |};
       "probabilities" :=
         {| static := top_k_probs; fetch := run "probabilities" |} ]} in
  if decide (mode = PREDICT)
  then create_servable_estimator_spec predictions mode
  else EstimatorSpec_new mode None None.

(** The model the notebook exports. *)
Definition exported : result Servable :=
  export_savedmodel resnet_model_fn serving_input_receiver_fn.

(** A call of the exported model under a signature name. *)
Definition serve (signature_name : string) (request : gmap string value)
  : result (gmap string value) :=
  servable ← exported;
  predict servable signature_name request.

(** The request of the client: one field, the batch of JPEG strings. *)
Definition request (images : list bytes) : gmap string value :=
  {[ "images" := Strings images ]}.

(** An image the contract admits: a JPEG stream of a picture already
    sized 224 by 224, decoded to three channels. *)
Definition valid_image (encoded_image : bytes) : Prop :=
  ∃ image,
    decode_jpeg encoded_image 3 = Some image ∧
    shape image = [_DEFAULT_IMAGE_SIZE; _DEFAULT_IMAGE_SIZE; 3] ∧
    tensor_wf image.

(** The network returns one row of [num_classes] logits per image. *)
Definition network_shaped : Prop :=
  ∀ resnet_size num_classes format inputs is_training,
    let logits :=
      imagenet_resnet_v2 resnet_size num_classes format inputs is_training
    in
    length logits = hd 0 (shape inputs) ∧
    Forall (fun row => length row = num_classes) logits.

(** In inference mode the network scores every image of the batch on
    its own, by [score]. *)
Definition network_rowwise (score : list R -> list R) : Prop :=
  ∀ inputs,
    imagenet_resnet_v2 RESNET_SIZE _LABEL_CLASSES channels_last
      inputs false = score <$> unstack inputs.

(** The normalized pixels of one image, row-major. *)
Definition pixels (encoded_image : bytes) : list R :=
  match preprocess_image encoded_image with
  | Ok image => data image
  | Raise _ => []
  end.

(** The batch tensor the network receives for admitted images. *)
Definition batch_tensor (images : list bytes) : tensor R :=
  Tensor
    [length images; _DEFAULT_IMAGE_SIZE; _DEFAULT_IMAGE_SIZE; 3]
    (concat (pixels <$> images)).

(** The logits of a batch when the model serves a request. *)
Definition logits_of (images : list bytes) : list (list R) :=
  imagenet_resnet_v2 RESNET_SIZE _LABEL_CLASSES channels_last
    (batch_tensor images) false.
End model.

End Estimator.

(** ** The file system under the export directory *)

Record MetaGraphDef := {
  tags : list string;
  signature_def : gmap string SignatureDef;
}.

Inductive node :=
| Directory
| VariablesFile
| SavedModelFile (meta_graphs : list MetaGraphDef).

(** A program on the file system: it returns or raises, and leaves a file
    system behind either way. *)
Definition io (A : Type) : Type :=
  gmap string node -> result A * gmap string node.

#[export] Instance io_ret : MRet io := fun A a fs => (Ok a, fs).
#[export] Instance io_bind : MBind io := fun A B k m fs =>
  match m fs with
  | (Ok a, fs') => k a fs'
  | (Raise e, fs') => (Raise e, fs')
  end.

Definition raise {A} (e : tf_error) : io A := fun fs => (Raise e, fs).

(** [os.path.join a b]. *)
Definition path_join (a b : string) : string := a +:+ "/" +:+ b.

(** The directories on the way to [p], [p] included, outermost first. *)
Fixpoint dir_prefixes (acc p : string) : list string :=
  match p with
  | EmptyString => [acc]
  | String c p' =>
      if Ascii.eqb c "/"%char
      then acc :: dir_prefixes (acc +:+ "/") p'
      else dir_prefixes (acc +:+ String c EmptyString) p'
  end.

(** Whether a name holds a path separator. *)
Fixpoint has_slash (p : string) : bool :=
  match p with
  | EmptyString => false
  | String c p' => Ascii.eqb c "/"%char || has_slash p'
  end.

Definition make_dir (fs : gmap string node) (d : string) : gmap string node :=
  match fs !! d with
  | Some _ => fs
  | None => <[d := Directory]> fs
  end.

Definition file_exists (p : string) : io bool :=
  fun fs => (Ok (bool_decide (is_Some (fs !! p))), fs).

Definition recursive_create_dir (p : string) : io unit :=
  fun fs => (Ok (), foldl make_dir fs (dir_prefixes EmptyString p)).

Definition write_file (p : string) (content : node) : io unit :=
  fun fs => (Ok (), <[p := content]> fs).

(** ** The Keras notebook *)

Module Keras.

Definition _DEFAULT_IMAGE_SIZE : nat := 224.
Definition TOP_K : nat := 5.

(** [str] on a non-negative integer. *)
Definition str (n : nat) : string := pretty n.

Definition VERSION_NUMBER : nat := 1.

Definition serving_dir (version_number : nat) : string :=
  "keras_resnet_servable/" +:+ str version_number.

Definition SERVING_DIR : string := serving_dir VERSION_NUMBER.

Section preprocessing.
Variable decode_jpeg : bytes -> nat -> option (tensor byte).

(** The fixed mean of each channel, and whether the channel order is
    reversed (RGB to BGR). *)
Variable mean : nat -> R.
Variable bgr : bool.

(** Modelled from the spec: one pixel under Policy B, the mean of each
    channel subtracted after the channels are put in their final order. *)
Definition preprocess_pixel (px : list R) : list R :=
  imap (fun c v => (v - mean c)%R) (if bgr then reverse px else px).

(** Modelled from the spec: [preprocess_input] of
    [keras.applications.resnet50], whose body is not part of the
    notebooks. Policy B of the spec: every pixel has the fixed mean of
    each channel subtracted, without rescaling, the channel order
    possibly reversed. *)
Definition preprocess_input (x : tensor R) : tensor R :=
  Tensor (shape x)
    (concat (preprocess_pixel <$>
               chunks 3 (length (data x) `div` 3) (data x))).

(** The source's [height] and [width] arguments are never read. *)
Definition preprocess_image (encoded_image : bytes) : result (tensor R) :=
  match decode_jpeg encoded_image 3 with
  | None => Raise (InvalidArgumentError DecodeJpeg)
  | Some image =>
      let image := tensor_map to_float image in
      let image := preprocess_input image in
      Ok image
  end.
End preprocessing.

(** The means and the channel order [keras.applications] uses for
    ResNet50. *)
Definition imagenet_mean (c : nat) : R :=
  match c with
  | 0 => 103.939
  | 1 => 116.779
  | _ => 123.68
  end%R.

Record SavedModelBuilder := {
  export_dir : string;
  meta_graphs : list MetaGraphDef;
  has_saved_variables : bool;
}.

(** [saved_model_builder.SavedModelBuilder export_dir]. *)
Definition new_builder (export_dir : string) : io SavedModelBuilder :=
  found ← file_exists export_dir;
  if found : bool
  then raise (AssertionError "Export directory already exists.")
  else
    _ ← recursive_create_dir export_dir;
    mret {| export_dir := export_dir; meta_graphs := [];
            has_saved_variables := false |}.

(** [builder.add_meta_graph_and_variables sess tags signature_def_map];
    the saver writes the variables of the session as an index and one
    data shard under the prefix [variables/variables]. *)
Definition add_meta_graph_and_variables (builder : SavedModelBuilder)
    (tags : list string) (signature_def_map : gmap string SignatureDef)
  : io SavedModelBuilder :=
  if has_saved_variables builder
  then raise (AssertionError "Graph state has already been saved.")
  else
    let variables_dir := path_join (export_dir builder) "variables" in
    _ ← recursive_create_dir variables_dir;
    let variables_path := path_join variables_dir "variables" in
    _ ← write_file (variables_path +:+ ".index") VariablesFile;
    _ ← write_file (variables_path +:+ ".data-00000-of-00001")
          VariablesFile;
    mret {| export_dir := export_dir builder;
            meta_graphs :=
              meta_graphs builder ++
              [{| tags := tags; signature_def := signature_def_map |}];
            has_saved_variables := true |}.

(** [builder.save ()]: the path of the file written. *)
Definition save (builder : SavedModelBuilder) : io string :=
  let path := path_join (export_dir builder) "saved_model.pb" in
  _ ← write_file path (SavedModelFile (meta_graphs builder));
  mret path.

Definition SERVING : string := "serve".

Definition images : TensorInfo := placeholder DT_STRING [None].

Section export.
(** The two tensors the notebook leaves to the reader ([???]). *)
Variables top_k_probs top_k_classes : TensorInfo.

Definition signature : SignatureDef :=
  predict_signature_def
    {[ "images" := images ]}
    {[ "classes" := top_k_classes; "probabilities" := top_k_probs ]}.

Definition signature_def_map : gmap string SignatureDef :=
  {[ "predict" := signature ]}.

(** The last two cells, for the directory of a version number. *)
Definition export_to (serving_dir : string) : io string :=
  builder ← new_builder serving_dir;
  builder ←
    add_meta_graph_and_variables builder [SERVING] signature_def_map;
  save builder.

Definition export : io string := export_to SERVING_DIR.
End export.

End Keras.

(** ** A codec and a network to run the model on

    The codec accepts the streams that open with the JPEG marker [FF D8]
    and paints the picture with the byte that follows; the network scores
    class [c] with [c] times the first pixel. *)

Module Sample.

Definition decode_jpeg (contents : bytes) (channels : nat)
  : option (tensor byte) :=
  match contents with
  | xff :: xd8 :: v :: _ =>
      let s := [Estimator._DEFAULT_IMAGE_SIZE;
                Estimator._DEFAULT_IMAGE_SIZE; channels] in
      Some (Tensor s (replicate (numel s) v))
  | _ => None
  end.

Definition score (num_classes : nat) (image : list R) : list R :=
  (fun c => (hd 0 image * INR c)%R) <$> seq 0 num_classes.

Definition imagenet_resnet_v2 (resnet_size num_classes : nat)
    (format : Estimator.data_format) (inputs : tensor R)
    (is_training : bool) : list (list R) :=
  score num_classes <$> unstack inputs.

Definition images : list bytes :=
  [[xff; xd8; x10]; [xff; xd8; xc8; x00]].

Definition truncated : bytes := [xff].

End Sample.

(** A codec for pictures of any size: the two bytes after the marker give
    the height and the width, the next one paints the picture. *)

Module Sized.

Definition decode_jpeg (contents : bytes) (channels : nat)
  : option (tensor byte) :=
  match contents with
  | xff :: xd8 :: h :: w :: v :: _ =>
      let s := [Byte.to_nat h; Byte.to_nat w; channels] in
      Some (Tensor s (replicate (numel s) v))
  | _ => None
  end.

Definition small : bytes := [xff; xd8; x02; x02; x10].
Definition wide : bytes := [xff; xd8; x02; x03; x10].

End Sized.

(** * Properties *)

(** ** Results *)

Lemma bind_Ok {A B} (m : result A) (k : A -> result B) (b : B) :
  m ≫= k = Ok b ↔ ∃ a, m = Ok a ∧ k a = Ok b.
Proof.
  destruct m as [a|e]; simpl; split.
  - eauto.
  - by intros (a' & [= ->] & ?).
  - done.
  - by intros (a' & ? & _).
Qed.

Lemma getitem_singleton {V} (k : string) (v : V) :
  getitem {[ k := v ]} k = Ok v.
Proof. unfold getitem. by rewrite lookup_singleton_eq. Qed.

Lemma map_result_Ok {A B} (f : A -> result B) (g : A -> B) (l : list A) :
  Forall (fun x => f x = Ok (g x)) l → map_result f l = Ok (g <$> l).
Proof.
  induction 1 as [|x l Hx _ IH]; [done|].
  simpl. rewrite Hx. simpl. by rewrite IH.
Qed.

Lemma map_result_Raise {A B} (f : A -> result B) (e : tf_error) (l : list A) :
  Forall (fun x => f x = Raise e ∨ ∃ y, f x = Ok y) l →
  Exists (fun x => f x = Raise e) l →
  map_result f l = Raise e.
Proof.
  induction 1 as [|x l Hx _ IH]; inversion_clear 1 as [? ? Hex|? ? Hex]; simpl.
  - by rewrite Hex.
  - destruct Hx as [->|[y ->]]; [done|]. simpl. by rewrite IH.
Qed.

Lemma map_result_inv {A B} (f : A -> result B) (l : list A) (ys : list B) :
  map_result f l = Ok ys → Forall2 (fun x y => f x = Ok y) l ys.
Proof.
  revert ys. induction l as [|x l IH]; intros ys; simpl.
  - intros [= <-]. constructor.
  - intros (y & Hy & (ys' & Hys & [= <-])%bind_Ok)%bind_Ok.
    constructor; auto.
Qed.

(** ** [tf.nn.top_k] *)

Section top_k_facts.
Context `{Score A}.
Implicit Types (x y z : entry (A := A)) (l : list (entry (A := A))).

#[local] Instance precedes_trans : Transitive (precedes (A := A)).
Proof.
  intros x y z [Hxy|[Hxy Hi]] [Hyz|[Hyz Hj]]; unfold precedes.
  - left. by etrans.
  - left. by rewrite <- Hyz.
  - left. by rewrite Hxy.
  - right. split; [congruence|lia].
Qed.

#[local] Instance precedes_irrefl : Irreflexive (precedes (A := A)).
Proof.
  intros x [Hx|[_ Hx]]; [|lia].
  by apply (irreflexivity score_lt x.1).
Qed.

Lemma insert_desc_perm x l : insert_desc x l ≡ₚ x :: l.
Proof.
  induction l as [|y l IH]; simpl; [done|].
  case_decide; [|done]. rewrite IH. apply Permutation_swap.
Qed.

Lemma sort_desc_perm l : sort_desc l ≡ₚ l.
Proof.
  induction l as [|x l IH]; simpl; [done|].
  by rewrite insert_desc_perm, IH.
Qed.

Lemma insert_desc_sorted x l :
  Forall (fun y => x.2 < y.2) l →
  StronglySorted precedes l →
  StronglySorted precedes (insert_desc x l).
Proof.
  induction l as [|y l IH]; simpl; intros Hx Hl.
  { repeat constructor. }
  apply Forall_cons in Hx as [Hxy Hx].
  apply StronglySorted_cons in Hl as [Hy Hl].
  case_decide as Hlt.
  - apply StronglySorted_cons. split; [|by apply IH].
    rewrite insert_desc_perm. constructor; [by left|done].
  - assert (precedes x y) as Hp.
    { destruct (trichotomy score_lt x.1 y.1) as [?|[?|?]];
        [done|by right|by left]. }
    apply StronglySorted_cons. split.
    + constructor; [done|].
      eapply Forall_impl; [exact Hy|]. intros z Hz. by etrans.
    + by apply StronglySorted_cons.
Qed.

Lemma sort_desc_sorted l :
  StronglySorted (fun x y => x.2 < y.2) l →
  StronglySorted precedes (sort_desc l).
Proof.
  induction l as [|x l IH]; simpl; intros Hl.
  { constructor. }
  apply StronglySorted_cons in Hl as [Hx Hl].
  apply insert_desc_sorted; [|by apply IH].
  by rewrite sort_desc_perm.
Qed.

Lemma columns_lookup (row : list A) (j : nat) :
  columns row !! j = (fun v => (v, j)) <$> row !! j.
Proof. unfold columns. by rewrite list_lookup_imap. Qed.

Lemma elem_of_columns (row : list A) x :
  x ∈ columns row ↔ row !! x.2 = Some x.1.
Proof.
  rewrite list_elem_of_lookup. setoid_rewrite columns_lookup.
  destruct x as [v i]; simpl. split.
  - intros (j & Hj). destruct (row !! j) eqn:E; naive_solver.
  - intros Hi. exists i. by rewrite Hi.
Qed.

Lemma columns_snd (row : list A) : (columns row).*2 = seq 0 (length row).
Proof.
  unfold columns. rewrite fmap_imap.
  etrans; [|apply list_fmap_id]. apply (imap_seq_0 row (fun i => i)).
Qed.


Lemma columns_sorted (row : list A) :
  StronglySorted (fun x y => x.2 < y.2) (columns row).
Proof.
  assert (∀ n m, StronglySorted lt (seq n m)) as Hseq.
  { intros n m. revert n. induction m as [|m IH]; intros n; simpl.
    - constructor.
    - apply StronglySorted_cons. split; [|done].
      apply Forall_forall. intros j Hj%elem_of_seq. lia. }
  pose proof (Hseq 0 (length row)) as Hs. rewrite <- columns_snd in Hs.
  induction (columns row) as [|x l IH]; [constructor|].
  rewrite fmap_cons in Hs. apply StronglySorted_cons in Hs as [Hx Hl].
  apply StronglySorted_cons. split; [|by apply IH].
  rewrite Forall_fmap in Hx. exact Hx.
Qed.

Lemma sort_desc_columns_NoDup (row : list A) :
  NoDup (sort_desc (columns row)).*2.
Proof.
  rewrite sort_desc_perm, columns_snd. apply NoDup_seq.
Qed.

Lemma length_top_k_entries (row : list A) (k : nat) :
  k ≤ length row → length (top_k_entries row k) = k.
Proof.
  intros Hk. unfold top_k_entries.
  rewrite length_take, sort_desc_perm. unfold columns.
  rewrite length_imap. lia.
Qed.

Lemma top_k_entries_sorted (row : list A) (k : nat) :
  StronglySorted precedes (top_k_entries row k).
Proof.
  pose proof (sort_desc_sorted _ (columns_sorted row)) as Hs.
  rewrite <- (take_drop k (sort_desc (columns row))) in Hs.
  by apply StronglySorted_app_1_l in Hs.
Qed.

Lemma top_k_entries_lookup (row : list A) (k : nat) x :
  x ∈ top_k_entries row k → row !! x.2 = Some x.1.
Proof.
  intros Hx. apply elem_of_columns. rewrite <- sort_desc_perm.
  by apply (subseteq_take k).
Qed.

Lemma top_k_entries_NoDup (row : list A) (k : nat) :
  NoDup (top_k_entries row k).*2.
Proof.
  unfold top_k_entries. rewrite fmap_take.
  eapply sublist_NoDup; [apply sort_desc_columns_NoDup|apply sublist_take].
Qed.

(** Every entry left out comes after every entry selected. *)
Lemma top_k_entries_best (row : list A) (k : nat) x y :
  x ∈ top_k_entries row k →
  row !! y.2 = Some y.1 →
  y.2 ∉ (top_k_entries row k).*2 →
  precedes x y.
Proof.
  intros Hx Hy Hny.
  pose proof (sort_desc_sorted _ (columns_sorted row)) as Hs.
  rewrite <- (take_drop k (sort_desc (columns row))) in Hs.
  eapply StronglySorted_app_1_elem_of; [exact Hs|exact Hx|].
  apply elem_of_columns in Hy. rewrite <- sort_desc_perm in Hy.
  rewrite <- (take_drop k (sort_desc (columns row))) in Hy.
  apply elem_of_app in Hy as [Hy|Hy]; [|done].
  destruct Hny. apply list_elem_of_fmap. by exists y.
Qed.

Lemma top_k_row_selects (row : list A) (k : nat) :
  k ≤ length row →
  ∃ values indices,
    top_k_row row k = Ok (values, indices) ∧
    selects_top_k row k values indices.
Proof.
  intros Hk. exists (top_k_entries row k).*1, (top_k_entries row k).*2.
  unfold top_k_row. rewrite decide_True by done. split; [done|].
  unfold selects_top_k. rewrite zip_fst_snd, !length_fmap.
  rewrite length_top_k_entries by done.
  split_and!; try done.
  - apply top_k_entries_NoDup.
  - intros j i Hj. rewrite list_lookup_fmap in Hj.
    apply fmap_Some in Hj as (x & Hx & ->).
    trans (Some x.1).
    + eapply top_k_entries_lookup, list_elem_of_lookup_2, Hx.
    + symmetry. rewrite list_lookup_fmap. apply fmap_Some. by exists x.
  - apply top_k_entries_sorted.
  - intros i v Hv Hi. apply Forall_forall. intros x Hx.
    by apply (top_k_entries_best row k x (v, i)).
Qed.

Lemma elem_of_zip_lookup (values : list A) (indices : list nat) x :
  x ∈ zip values indices →
  ∃ j, values !! j = Some x.1 ∧ indices !! j = Some x.2.
Proof.
  intros (j & Hj)%list_elem_of_lookup. exists j.
  apply lookup_zip_with_Some in Hj as (v & i & -> & ? & ?). done.
Qed.

(** The order and the columns of the row leave one answer only. *)
Lemma selects_top_k_unique (row : list A) (k : nat) values indices :
  selects_top_k row k values indices →
  top_k_row row k = Ok (values, indices).
Proof.
  intros (Hlv & Hli & Hnd & Hrow & Hsorted & Hbest).
  set (es := zip values indices) in *.
  assert (es.*1 = values ∧ es.*2 = indices) as [Hes1 Hes2].
  { unfold es. split; [apply fst_zip|apply snd_zip]; lia. }
  assert (∀ x, x ∈ es → row !! x.2 = Some x.1) as Hin.
  { intros x (j & Hv & Hi)%elem_of_zip_lookup.
    by rewrite (Hrow _ _ Hi). }
  assert (k ≤ length row) as Hk.
  { rewrite <- Hli. trans (length (seq 0 (length row)));
      [|by rewrite length_seq].
    apply submseteq_length, NoDup_submseteq; [done|].
    intros i Hi. rewrite <- Hes2 in Hi.
    apply list_elem_of_fmap in Hi as (x & -> & Hx%Hin).
    apply elem_of_seq. apply lookup_lt_Some in Hx. lia. }
  unfold top_k_row. rewrite decide_True by done.
  enough (es = top_k_entries row k) as <- by (by rewrite Hes1, Hes2).
  assert (NoDup es) as Hnd_es.
  { apply (NoDup_fmap_1 snd). by rewrite Hes2. }
  assert (length es = k) as Hes.
  { by rewrite <- Hes1, length_fmap in Hlv. }
  pose proof (top_k_entries_NoDup row k) as HndT.
  pose proof (length_top_k_entries row k Hk) as HlT.
  pose proof (top_k_entries_sorted row k) as HsT.
  pose proof (top_k_entries_lookup row k) as HinT.
  assert (∀ f e, f ∈ top_k_entries row k → row !! e.2 = Some e.1 →
            e ∈ top_k_entries row k ∨ precedes f e) as Hrest.
  { intros f e Hf He.
    apply elem_of_columns in He. rewrite <- sort_desc_perm in He.
    pose proof (sort_desc_sorted _ (columns_sorted row)) as Hs.
    rewrite <- (take_drop k (sort_desc (columns row))) in He, Hs.
    apply elem_of_app in He as [He|He]; [by left|right].
    by eapply StronglySorted_app_1_elem_of. }
  generalize dependent (top_k_entries row k). intros T HndT HlT HsT HinT Hrest.
  clearbody es.
  apply (StronglySorted_unique_strong precedes); [|done|done|].
  { intros x y _ _ Hxy Hyx.
    destruct (irreflexivity precedes x). by etrans. }
  apply submseteq_length_Permutation; [|unfold entry in *; lia].
  apply NoDup_submseteq; [done|]. intros e He.
  destruct (decide (Forall (fun f => f.2 ∈ indices) T)) as [Hall|Hex].
  - assert (T.*2 ≡ₚ indices) as Hperm.
    { apply submseteq_length_Permutation;
        [|rewrite length_fmap; unfold entry in *; lia].
      apply NoDup_submseteq; [done|].
      intros i (f & -> & Hf)%list_elem_of_fmap.
      by eapply Forall_forall in Hall. }
    assert (e.2 ∈ T.*2) as (f & Hfe & Hf)%list_elem_of_fmap.
    { rewrite Hperm, <- Hes2. apply list_elem_of_fmap. by exists e. }
    replace e with f; [done|].
    pose proof (HinT _ Hf) as Hf1.
    pose proof (Hin _ He) as He1. rewrite Hfe in He1.
    destruct e, f; simpl in *. congruence.
  - apply not_Forall_Exists in Hex; [|apply _].
    apply Exists_exists in Hex as (f & Hf & Hfi).
    destruct (Hrest f e Hf (Hin _ He)) as [|Hfe]; [done|].
    assert (precedes e f) as Hef.
    { specialize (Hbest _ _ (HinT _ Hf) Hfi).
      eapply Forall_forall in Hbest; [|exact He]. by destruct f. }
    destruct (irreflexivity precedes e). by etrans.
Qed.
End top_k_facts.

(** ** [tf.nn.softmax] *)

Section softmax_facts.
#[local] Open Scope R_scope.

Lemma Rsum_exp_pos (l : list R) : l ≠ [] → 0 < Rsum (exp <$> l).
Proof.
  destruct l as [|x l]; [done|intros _]. csimpl.
  pose proof (exp_pos x).
  enough (0 <= Rsum (exp <$> l)) by lra.
  induction l as [|y l IH]; csimpl; [lra|].
  pose proof (exp_pos y). lra.
Qed.

Lemma Rsum_div (es : list R) (s : R) :
  Rsum ((fun e => e / s) <$> es) = Rsum es / s.
Proof.
  induction es as [|e es IH]; csimpl; [unfold Rdiv; ring|].
  rewrite IH. unfold Rdiv. ring.
Qed.

Lemma length_softmax_row (logits : list R) :
  length (softmax_row logits) = length logits.
Proof. unfold softmax_row. by rewrite !length_fmap. Qed.

Lemma softmax_row_lookup (logits : list R) (j : nat) :
  softmax_row logits !! j =
  (fun x => exp x / Rsum (exp <$> logits)) <$> logits !! j.
Proof.
  unfold softmax_row. rewrite !list_lookup_fmap.
  by destruct (logits !! j).
Qed.

Lemma softmax_row_sum (logits : list R) :
  logits ≠ [] → Rsum (softmax_row logits) = 1.
Proof.
  intros Hne%Rsum_exp_pos. unfold softmax_row.
  rewrite Rsum_div. field. lra.
Qed.

Lemma softmax_row_bounds (logits : list R) :
  Forall (fun p => 0 < p <= 1) (softmax_row logits).
Proof.
  destruct (decide (logits = [])) as [->|Hne]; [constructor|].
  pose proof (Rsum_exp_pos _ Hne) as Hs.
  apply Forall_forall. intros p (j & Hj)%list_elem_of_lookup.
  rewrite softmax_row_lookup in Hj.
  apply fmap_Some in Hj as (x & Hx & ->).
  assert (exp x <= Rsum (exp <$> logits)) as Hle.
  { clear Hs Hne. revert j Hx.
    induction logits as [|y l IH]; intros [|j] Hj; simplify_eq/=.
    - enough (0 <= Rsum (exp <$> l)) by lra.
      clear. induction l as [|z l IH]; csimpl; [lra|].
      pose proof (exp_pos z). lra.
    - pose proof (exp_pos y). specialize (IH _ Hj). lra. }
  pose proof (exp_pos x). split.
  - by apply Rdiv_lt_0_compat.
  - apply (Rmult_le_reg_r (Rsum (exp <$> logits))); [done|].
    field_simplify; lra.
Qed.

(** Softmax keeps the order of the logits. *)
Lemma softmax_row_mono (logits : list R) (i j : nat) (x y : R) :
  logits !! i = Some x → logits !! j = Some y → y <= x →
  ∃ p q, softmax_row logits !! i = Some p ∧
         softmax_row logits !! j = Some q ∧ q <= p.
Proof.
  intros Hi Hj Hyx. rewrite !softmax_row_lookup, Hi, Hj. csimpl.
  eexists _, _. split_and!; [done..|].
  assert (logits ≠ []) as Hs%Rsum_exp_pos by by intros ->.
  assert (exp y <= exp x) as He.
  { destruct Hyx as [Hlt| ->]; [left; by apply exp_increasing|lra]. }
  apply Rmult_le_compat_r; [|done].
  left. by apply Rinv_0_lt_compat.
Qed.

Lemma softmax_row_sorted (logits : list R) :
  StronglySorted (fun x y => y <= x) logits →
  StronglySorted (fun p q => q <= p) (softmax_row logits).
Proof.
  intros Hs.
  assert (∀ s, 0 < s →
    StronglySorted (fun p q => q <= p)
      ((fun e => e / s) <$> (exp <$> logits))) as Hgen.
  { intros s Hpos. induction Hs as [|x l _ IH Hx]; csimpl; constructor.
    - done.
    - rewrite !Forall_fmap. eapply Forall_impl; [exact Hx|].
      intros y Hyx. csimpl.
      assert (exp y <= exp x) as He.
      { destruct Hyx as [Hlt| ->]; [left; by apply exp_increasing|lra]. }
      apply Rmult_le_compat_r; [|done].
      left. by apply Rinv_0_lt_compat. }
  destruct (decide (logits = [])) as [->|Hne]; [constructor|].
  apply Hgen, Rsum_exp_pos, Hne.
Qed.


Lemma StronglySorted_fmap_impl {A B} (R1 : relation A) (R2 : relation B)
    (f : A -> B) (l : list A) :
  (∀ x y, R1 x y → R2 (f x) (f y)) →
  StronglySorted R1 l → StronglySorted R2 (f <$> l).
Proof.
  intros Hf. induction 1 as [|x l _ IH Hx]; csimpl; constructor; [done|].
  apply Forall_fmap. eapply Forall_impl; [exact Hx|]. intros y. apply Hf.
Qed.

(** The scores [tf.nn.top_k] returns are in non-increasing order. *)
Lemma top_k_values_sorted (row : list R) (k : nat) :
  StronglySorted (fun x y => y <= x) (top_k_entries row k).*1.
Proof.
  eapply StronglySorted_fmap_impl; [|apply top_k_entries_sorted].
  intros x y [Hlt|[-> _]]; simpl in *; lra.
Qed.

End softmax_facts.

(** ** Tensors *)

Lemma numel_pos (s : list nat) : Forall (fun d => 0 < d) s → 0 < numel s.
Proof.
  induction 1 as [|d s Hd _ IH]; unfold numel; simpl; [lia|].
  apply Nat.mul_pos_pos; done.
Qed.

Lemma length_concat_uniform {A} (n : nat) (ls : list (list A)) :
  Forall (fun x => length x = n) ls → length (concat ls) = length ls * n.
Proof.
  induction 1 as [|x ls Hx _ IH]; simpl; [done|].
  rewrite length_app, IH, Hx. done.
Qed.

Lemma length_chunks {A} (n count : nat) (l : list A) :
  length (chunks n count l) = count.
Proof. revert l. induction count as [|count IH]; intros l; simpl; auto. Qed.

Lemma chunks_concat {A} (n : nat) (ls : list (list A)) :
  Forall (fun x => length x = n) ls → chunks n (length ls) (concat ls) = ls.
Proof.
  induction 1 as [|x ls Hx _ IH]; simpl; [done|].
  rewrite take_app_length', drop_app_length' by done. by rewrite IH.
Qed.

Lemma pack_uniform {A} (s : list nat) (ts : list (tensor A)) :
  ts ≠ [] → Forall (fun t => shape t = s) ts →
  pack ts = Ok (Tensor (length ts :: s) (concat (data <$> ts))).
Proof.
  destruct ts as [|t ts]; [done|intros _].
  intros [Ht Hts]%Forall_cons. unfold pack. rewrite Ht.
  replace (same_shape s ts) with true; [done|].
  induction Hts as [|t' ts Ht' _ IH]; simpl; [done|].
  by rewrite bool_decide_true.
Qed.

Lemma reshape_batch {A} (t : tensor A) (n h w c : nat) :
  0 < h → 0 < w → 0 < c →
  length (data t) = n * numel [h; w; c] →
  reshape t [(-1)%Z; Z.of_nat h; Z.of_nat w; Z.of_nat c] =
  Ok (Tensor [n; h; w; c] (data t)).
Proof.
  intros Hh Hw Hc Hlen. unfold reshape.
  assert (wildcards [(-1)%Z; Z.of_nat h; Z.of_nat w; Z.of_nat c] = 1) as ->.
  { unfold wildcards. rewrite filter_cons_True by done.
    rewrite !filter_cons_False by lia. done. }
  assert (known_dims [(-1)%Z; Z.of_nat h; Z.of_nat w; Z.of_nat c]
          = [h; w; c]) as ->.
  { unfold known_dims. rewrite filter_cons_False by (intros ?; done).
    rewrite !filter_cons_True by lia. csimpl. by rewrite !Nat2Z.id. }
  assert (0 < numel [h; w; c]) as Hpos.
  { apply numel_pos. repeat constructor; done. }
  rewrite decide_False by lia.
  rewrite Hlen, Nat.Div0.mod_mul, Nat.div_mul by lia.
  rewrite decide_True by done. f_equal. f_equal. csimpl.
  unfold fill_dim. rewrite decide_True by done.
  rewrite !decide_False by lia. by rewrite !Nat2Z.id.
Qed.

Lemma unstack_batch {A} (s : list nat) (ls : list (list A)) :
  Forall (fun x => length x = numel s) ls →
  unstack (Tensor (length ls :: s) (concat ls)) = ls.
Proof. intros Hls. unfold unstack. simpl. by apply chunks_concat. Qed.

Lemma pick_fmap {A B} (f : A -> B) (σ : list nat) (l : list A) :
  pick σ (f <$> l) = f <$> pick σ l.
Proof.
  unfold pick. induction σ as [|i σ IH]; csimpl; [done|].
  rewrite list_lookup_fmap. destruct (l !! i); csimpl; by rewrite IH.
Qed.

Lemma Forall_pick {A} (P : A -> Prop) (σ : list nat) (l : list A) :
  Forall P l → Forall P (pick σ l).
Proof.
  intros Hl. unfold pick. induction σ as [|i σ IH]; csimpl; [constructor|].
  destruct (l !! i) as [x|] eqn:Hx; csimpl; [|exact IH].
  constructor; [|exact IH]. by eapply (Forall_lookup_1 P l i).
Qed.

Lemma top_k_Ok `{Score A} (input : list (list A)) (k : nat) :
  Forall (fun row => k ≤ length row) input →
  top_k input k =
  Ok ((fun row => (top_k_entries row k).*1) <$> input,
      (fun row => (top_k_entries row k).*2) <$> input).
Proof.
  intros Hk. unfold top_k.
  rewrite (map_result_Ok _
    (fun row => ((top_k_entries row k).*1, (top_k_entries row k).*2))).
  - csimpl. by rewrite <- !list_fmap_compose.
  - eapply Forall_impl; [exact Hk|]. intros row Hrow. unfold top_k_row.
    by rewrite decide_True.
Qed.

(** ** The Estimator notebook *)

Section estimator_facts.
Variable decode_jpeg : bytes -> nat -> option (tensor byte).
Variable imagenet_resnet_v2 :
  nat -> nat -> Estimator.data_format -> tensor R -> bool -> list (list R).

#[local] Abbreviation preprocess_image :=
  (Estimator.preprocess_image decode_jpeg).
#[local] Abbreviation valid_image := (Estimator.valid_image decode_jpeg).
#[local] Abbreviation pixels := (Estimator.pixels decode_jpeg).
#[local] Abbreviation batch_tensor := (Estimator.batch_tensor decode_jpeg).
#[local] Abbreviation predictions_of :=
  (Estimator.predictions_of decode_jpeg imagenet_resnet_v2).
#[local] Abbreviation logits_of :=
  (Estimator.logits_of decode_jpeg imagenet_resnet_v2).
#[local] Abbreviation serve := (Estimator.serve decode_jpeg imagenet_resnet_v2).
#[local] Abbreviation network_shaped :=
  (Estimator.network_shaped imagenet_resnet_v2).
#[local] Abbreviation request := Estimator.request.
#[local] Abbreviation image_shape :=
  [Estimator._DEFAULT_IMAGE_SIZE; Estimator._DEFAULT_IMAGE_SIZE; 3].
#[local] Abbreviation TOP_K := Estimator.TOP_K.

Lemma preprocess_valid (encoded_image : bytes) :
  valid_image encoded_image →
  ∃ t, preprocess_image encoded_image = Ok t ∧
       shape t = image_shape ∧
       data t = pixels encoded_image ∧
       length (pixels encoded_image) = numel image_shape.
Proof.
  intros (image & Hdec & Hshape & Hwf).
  unfold Estimator.pixels, Estimator.preprocess_image. rewrite Hdec.
  eexists. split; [reflexivity|]. split; [exact Hshape|].
  split; [reflexivity|]. cbn [data tensor_map].
  rewrite length_map. unfold tensor_wf in Hwf. by rewrite Hshape in Hwf.
Qed.

Lemma map_result_valid (images : list bytes) :
  Forall valid_image images →
  ∃ ts, map_result preprocess_image images = Ok ts ∧
        length ts = length images ∧
        Forall (fun t => shape t = image_shape) ts ∧
        data <$> ts = pixels <$> images.
Proof.
  induction 1 as [|x l Hx _ (ts & Hts & Hlen & Hshape & Hdata)].
  { exists []. by split_and!. }
  apply preprocess_valid in Hx as (t & Ht & Hs & Hd & _).
  exists (t :: ts). csimpl. rewrite Ht. csimpl. rewrite Hts. csimpl.
  split_and!; [done|by rewrite Hlen|by constructor|].
  by rewrite Hd, Hdata.
Qed.

Lemma pixels_uniform (images : list bytes) :
  Forall valid_image images →
  Forall (fun x => length x = numel image_shape) (pixels <$> images).
Proof.
  intros Hv. apply Forall_fmap. eapply Forall_impl; [exact Hv|].
  by intros x (t & _ & _ & _ & Hlen)%preprocess_valid.
Qed.

(** Lines 203 to 207 on admitted images. *)
Lemma processed_valid (images : list bytes) :
  images ≠ [] → Forall valid_image images →
  (processed_images ← map_fn preprocess_image images;
   reshape (stack processed_images)
     [(-1)%Z; Z.of_nat Estimator._DEFAULT_IMAGE_SIZE;
      Z.of_nat Estimator._DEFAULT_IMAGE_SIZE; 3%Z])
  = Ok (batch_tensor images).
Proof.
  intros Hne Hv.
  destruct (map_result_valid _ Hv) as (ts & Hts & Hlen & Hshape & Hdata).
  pose proof (length_concat_uniform _ _ (pixels_uniform _ Hv)) as Hsize.
  rewrite length_fmap in Hsize.
  unfold map_fn. rewrite Hts. csimpl.
  assert (∃ t, pack ts = Ok t ∧ data t = concat (pixels <$> images))
    as (t & -> & Hd).
  { assert (ts ≠ []) as Hts'.
    { intros ->. by destruct images. }
    rewrite (pack_uniform image_shape) by done.
    eexists. split; [done|]. simpl. by rewrite Hdata. }
  csimpl. unfold stack, Estimator.batch_tensor. rewrite <- Hd.
  apply (reshape_batch t (length images) _ _ 3);
    [unfold Estimator._DEFAULT_IMAGE_SIZE; lia..|].
  by rewrite Hd.
Qed.

Lemma predictions_of_Ok (images : value) (mode : Estimator.ModeKeys)
    (predictions : gmap string value) :
  predictions_of images mode = Ok predictions →
  ∃ classes probabilities,
    predictions = {[ "classes" := Int32s classes;
                     "probabilities" := Floats probabilities ]}.
Proof.
  unfold Estimator.predictions_of. intros H.
  destruct (as_strings images) as [l|]; [|done]. csimpl in H.
  destruct (map_fn _ l) as [p|]; [|done]. csimpl in H.
  destruct (reshape _ _) as [t|]; [|done]. csimpl in H.
  destruct (top_k _ _) as [[vs cs]|]; [|done]. csimpl in H.
  injection H as <-. by eexists _, _.
Qed.

(** The export of line 328: the signature of [export_outputs], under its
    own key and under the default key, from the placeholder of line 316
    to the two tensors of lines 232 to 235. *)
Lemma exported_eq :
  let run key (feed : gmap string value) :=
    fed ← getitem feed "images";
    values ← predictions_of fed Estimator.PREDICT;
    getitem values key in
  let outputs : gmap string graph_tensor :=
    {[ "classes" :=
         {| static := {| dtype := DT_INT32; tensor_shape := [None; Some 5] |};
            fetch := run "classes" |};
       "probabilities" :=
         {| static := {| dtype := DT_FLOAT; tensor_shape := [None; Some 5] |};
            fetch := run "probabilities" |} ]} in
  let signature :=
    predict_signature_def {[ "images" := placeholder DT_STRING [None] ]}
      (static <$> outputs) in
  Estimator.exported decode_jpeg imagenet_resnet_v2 =
  Ok {| Estimator.signatures :=
          {[ "predict" := signature; "serving_default" := signature ]};
        Estimator.fetches :=
          {[ "predict" := outputs; "serving_default" := outputs ]} |}.
Proof. reflexivity. Qed.

Lemma exported_signatures :
  ∃ servable,
    Estimator.exported decode_jpeg imagenet_resnet_v2 = Ok servable ∧
    Estimator.signatures servable =
      let signature :=
        predict_signature_def {[ "images" := placeholder DT_STRING [None] ]}
          {[ "classes" :=
               {| dtype := DT_INT32; tensor_shape := [None; Some 5] |};
             "probabilities" :=
               {| dtype := DT_FLOAT; tensor_shape := [None; Some 5] |} ]} in
      {[ "predict" := signature; "serving_default" := signature ]}.
Proof. eexists. split; [exact exported_eq|reflexivity]. Qed.

Lemma fetch_all_predictions (classes probabilities : graph_tensor)
    (feed : gmap string value) :
  fetch_all {[ "classes" := classes; "probabilities" := probabilities ]} feed =
  (c ← fetch classes feed;
   p ← fetch probabilities feed;
   Ok {[ "classes" := c; "probabilities" := p ]}).
Proof.
  unfold fetch_all.
  change (map_to_list _)
    with [("classes", classes); ("probabilities", probabilities)].
  csimpl. destruct (fetch classes feed) as [c|]; [|done]. csimpl.
  by destruct (fetch probabilities feed).
Qed.

Lemma serve_named (signature_name : string) (images : list bytes) :
  signature_name = "predict" ∨ signature_name = "serving_default" →
  serve signature_name (request images) =
  predictions_of (Strings images) Estimator.PREDICT.
Proof.
  intros Hname. unfold Estimator.serve. rewrite exported_eq. csimpl.
  unfold Estimator.predict. cbn [Estimator.signatures Estimator.fetches].
  assert (∀ signature : SignatureDef,
    inputs signature = {[ "images" := placeholder DT_STRING [None] ]} →
    Estimator.request_fits (request images) signature = true) as Hfits.
  { intros signature Hin. unfold Estimator.request_fits. rewrite Hin.
    reflexivity. }
  destruct Hname as [-> | ->].
  - rewrite !lookup_insert_eq. rewrite Hfits by done.
    rewrite fetch_all_predictions. cbn [fetch].
    unfold Estimator.request at 1 2. rewrite getitem_singleton. csimpl.
    destruct (predictions_of _ _) as [p|] eqn:Hp; [|done].
    apply predictions_of_Ok in Hp as (cs & ps & ->). done.
  - rewrite !lookup_insert_ne by done. rewrite !lookup_singleton_eq.
    rewrite Hfits by done.
    rewrite fetch_all_predictions. cbn [fetch].
    unfold Estimator.request at 1 2. rewrite getitem_singleton. csimpl.
    destruct (predictions_of _ _) as [p|] eqn:Hp; [|done].
    apply predictions_of_Ok in Hp as (cs & ps & ->). done.
Qed.



Lemma serve_predictions (images : list bytes) :
  serve "predict" (request images) =
  predictions_of (Strings images) Estimator.PREDICT.
Proof. apply serve_named. by left. Qed.

Lemma serve_rows (images : list bytes) :
  images ≠ [] → Forall valid_image images →
  Forall (fun row => TOP_K ≤ length row) (logits_of images) →
  serve "predict" (request images) =
  Ok {[ "classes" :=
          Int32s ((fun row => (top_k_entries row TOP_K).*2)
                    <$> logits_of images);
        "probabilities" :=
          Floats (softmax ((fun row => (top_k_entries row TOP_K).*1)
                             <$> logits_of images)) ]}.
Proof.
  intros Hne Hv Hrows. rewrite serve_predictions.
  unfold Estimator.predictions_of. csimpl.
  pose proof (processed_valid _ Hne Hv) as Hp.
  destruct (map_fn preprocess_image images) as [p|e]; [|done].
  csimpl in *. rewrite Hp. csimpl.
  fold (logits_of images). by rewrite top_k_Ok.
Qed.

Lemma network_shaped_rows (images : list bytes) :
  network_shaped →
  length (logits_of images) = length images ∧
  Forall (fun row => length row = Estimator._LABEL_CLASSES)
    (logits_of images).
Proof.
  intros Hnet.
  apply (Hnet Estimator.RESNET_SIZE Estimator._LABEL_CLASSES
           Estimator.channels_last (batch_tensor images) false).
Qed.

Lemma classes_cover_top_k (rows : list (list R)) :
  Forall (fun row => length row = Estimator._LABEL_CLASSES) rows →
  Forall (fun row => TOP_K ≤ length row) rows.
Proof.
  intros Hrows. eapply Forall_impl; [exact Hrows|]. intros row ->.
  unfold Estimator.TOP_K, Estimator._LABEL_CLASSES. lia.
Qed.

Lemma serve_valid (images : list bytes) :
  images ≠ [] → Forall valid_image images → network_shaped →
  serve "predict" (request images) =
  Ok {[ "classes" :=
          Int32s ((fun row => (top_k_entries row TOP_K).*2)
                    <$> logits_of images);
        "probabilities" :=
          Floats (softmax ((fun row => (top_k_entries row TOP_K).*1)
                             <$> logits_of images)) ]}.
Proof.
  intros Hne Hv Hnet. apply serve_rows; [done..|].
  by apply classes_cover_top_k, network_shaped_rows.
Qed.

Lemma logits_of_rowwise (score : list R -> list R) (images : list bytes) :
  Forall valid_image images →
  Estimator.network_rowwise imagenet_resnet_v2 score →
  logits_of images = score <$> (pixels <$> images).
Proof.
  intros Hv Hrow. unfold Estimator.logits_of. rewrite Hrow. f_equal.
  unfold Estimator.batch_tensor.
  rewrite <- (length_fmap pixels images).
  apply unstack_batch, pixels_uniform, Hv.
Qed.

Lemma serve_valid_lengths (images : list bytes) :
  images ≠ [] → Forall valid_image images → network_shaped →
  ∃ classes probabilities,
    serve "predict" (request images) =
      Ok {[ "classes" := Int32s classes;
            "probabilities" := Floats probabilities ]} ∧
    length classes = length images ∧
    length probabilities = length images ∧
    Forall (fun cs => length cs = 5) classes ∧
    Forall (fun ps => length ps = 5) probabilities.
Proof.
  intros Hne Hv Hnet. eexists _, _. split; [by apply serve_valid|].
  destruct (network_shaped_rows images Hnet) as [Hlen Hrows].
  apply classes_cover_top_k in Hrows. unfold softmax.
  rewrite !length_fmap, Hlen. split_and!; [done..| |].
  - apply Forall_fmap. eapply Forall_impl; [exact Hrows|].
    intros row Hrow. simpl. rewrite length_fmap.
    by apply length_top_k_entries.
  - rewrite !Forall_fmap. eapply Forall_impl; [exact Hrows|].
    intros row Hrow. simpl. rewrite length_softmax_row, length_fmap.
    by apply length_top_k_entries.
Qed.

(** C2. A batch of [N] admitted images, [N] at least 1, is answered: the
    response holds [classes] and [probabilities], each with [N] rows of
    exactly 5 entries. *)
Theorem response_lengths (images : list bytes) :
  images ≠ [] → Forall valid_image images → network_shaped →
  ∃ classes probabilities,
    serve "predict" (request images) =
      Ok {[ "classes" := Int32s classes;
            "probabilities" := Floats probabilities ]} ∧
    length classes = length images ∧
    length probabilities = length images ∧
    Forall (fun cs => length cs = 5) classes ∧
    Forall (fun ps => length ps = 5) probabilities.
Proof. apply serve_valid_lengths. Qed.


(** C4. In the answer to a batch of at least one admitted image, the 5
    probabilities of every image are in non-increasing order and sum to 1,
    hence to 1 within [1e-5]. *)
Theorem probabilities_sorted_and_normalized (images : list bytes) :
  images ≠ [] → Forall valid_image images → network_shaped →
  ∃ classes probabilities,
    serve "predict" (request images) =
      Ok {[ "classes" := Int32s classes;
            "probabilities" := Floats probabilities ]} ∧
    length probabilities = length images ∧
    Forall (fun ps =>
      length ps = 5 ∧
      StronglySorted (fun p q => (q <= p)%R) ps ∧
      (Rabs (Rsum ps - 1) <= 1e-5)%R) probabilities.
Proof.
  intros Hne Hv Hnet. eexists _, _. split; [by apply serve_valid|].
  destruct (network_shaped_rows images Hnet) as [Hlen Hrows].
  apply classes_cover_top_k in Hrows. unfold softmax.
  rewrite !length_fmap. split; [done|].
  rewrite !Forall_fmap. eapply Forall_impl; [exact Hrows|].
  intros row Hrow. simpl.
  assert (length (top_k_entries row TOP_K).*1 = 5) as Hlv.
  { rewrite length_fmap. by apply length_top_k_entries. }
  split_and!.
  - by rewrite length_softmax_row.
  - apply softmax_row_sorted, top_k_values_sorted.
  - rewrite softmax_row_sum.
    + replace (1 - 1)%R with 0%R by lra. rewrite Rabs_R0. lra.
    + intros Hnil. by rewrite Hnil in Hlv.
Qed.
(** C5. One byte string of the batch that is not a JPEG image fails the
    whole call with the error of the decoder: there is no response at all,
    neither partial nor wrong. *)
Theorem malformed_image_fails_batch (images : list bytes) :
  Exists (fun encoded_image => decode_jpeg encoded_image 3 = None) images →
  serve "predict" (request images) =
  Raise (InvalidArgumentError DecodeJpeg).
Proof.
  intros Hbad. rewrite serve_predictions.
  unfold Estimator.predictions_of, map_fn. csimpl.
  rewrite (map_result_Raise _ (InvalidArgumentError DecodeJpeg)); [done| |].
  - apply Forall_forall. intros x _. unfold Estimator.preprocess_image.
    destruct (decode_jpeg x 3); eauto.
  - eapply Exists_impl; [exact Hbad|]. intros x Hx.
    unfold Estimator.preprocess_image. by rewrite Hx.
Qed.

(** C6. Policy A: a decoded image keeps its shape, every channel value [v],
    between 0 and 255, becomes [v / 255 - 0.5], and every result lies
    between [-0.5] and [0.5]. *)
Theorem preprocess_image_centered_unit
    (encoded_image : bytes) (image : tensor byte) :
  decode_jpeg encoded_image 3 = Some image →
  ∃ normalized,
    preprocess_image encoded_image = Ok normalized ∧
    shape normalized = shape image ∧
    data normalized =
      (fun v => to_float v / 255.0 - 0.5)%R <$> data image ∧
    Forall (fun v => (0 <= to_float v <= 255)%R) (data image) ∧
    Forall (fun x => (-0.5 <= x <= 0.5)%R) (data normalized).
Proof.
  intros Hdec. unfold Estimator.preprocess_image. rewrite Hdec.
  eexists. split; [reflexivity|]. split; [reflexivity|].
  split; [reflexivity|].
  assert (∀ v, (0 <= to_float v <= 255)%R) as Hrange.
  { intros v. unfold to_float. pose proof (Byte.to_N_bounded v) as Hv.
    split; [apply IZR_le; lia|]. apply IZR_le. lia. }
  split; [by apply Forall_forall|].
  cbn [data tensor_map]. apply Forall_forall.
  intros x (v & -> & _)%list_elem_of_fmap.
  specialize (Hrange v). lra.
Qed.

(** C8. With a network that scores every image on its own, the prediction
    at position [i] of a batch of at least one admitted image is a function
    of image [i] alone, and taking the images at the positions [σ] (a
    permutation of the positions, or any other choice that keeps at least
    one image) takes the predictions at the same positions. *)
Theorem predictions_follow_images
    (score : list R -> list R) (images : list bytes) (σ : list nat) :
  images ≠ [] → pick σ images ≠ [] → Forall valid_image images →
  Estimator.network_rowwise imagenet_resnet_v2 score →
  (∀ image, length (score image) = Estimator._LABEL_CLASSES) →
  ∃ classes probabilities,
    serve "predict" (request images) =
      Ok {[ "classes" := Int32s classes;
            "probabilities" := Floats probabilities ]} ∧
    serve "predict" (request (pick σ images)) =
      Ok {[ "classes" := Int32s (pick σ classes);
            "probabilities" := Floats (pick σ probabilities) ]} ∧
    classes =
      (fun x => (top_k_entries (score (pixels x)) TOP_K).*2) <$> images ∧
    probabilities =
      (fun x => softmax_row (top_k_entries (score (pixels x)) TOP_K).*1)
        <$> images.
Proof.
  intros Hne Hpick Hv Hrow Hscore.
  assert (∀ l, l ≠ [] → Forall valid_image l →
    serve "predict" (request l) =
    Ok {[ "classes" :=
            Int32s ((fun x => (top_k_entries (score (pixels x)) TOP_K).*2)
                      <$> l);
          "probabilities" :=
            Floats ((fun x =>
                       softmax_row (top_k_entries (score (pixels x)) TOP_K).*1)
                      <$> l) ]}) as Hserve.
  { intros l Hnil Hl. rewrite serve_rows; [|done..|].
    - rewrite (logits_of_rowwise score) by done. unfold softmax.
      by rewrite <- !list_fmap_compose.
    - rewrite (logits_of_rowwise score) by done.
      apply classes_cover_top_k. rewrite !Forall_fmap.
      apply Forall_forall. intros x _. apply Hscore. }
  eexists _, _. split; [by apply Hserve|].
  split; [|done]. rewrite Hserve; [|done|by apply Forall_pick].
  by rewrite !pick_fmap.
Qed.
End estimator_facts.

(** C3. For every row of a score matrix, [tf.nn.top_k] with [k = 5] returns
    5 columns with their scores, largest score first and the lower column
    first among equal scores, and no column left out would come before a
    selected one; these conditions leave no other answer, so the result is
    a function of the scores alone. *)
Theorem top_k_selection_deterministic (logits : list (list R)) :
  Forall (fun row => Estimator.TOP_K ≤ length row) logits →
  ∃ values indices,
    top_k logits Estimator.TOP_K = Ok (values, indices) ∧
    length values = length logits ∧
    length indices = length logits ∧
    ∀ i row, logits !! i = Some row →
      ∃ vs cs,
        values !! i = Some vs ∧ indices !! i = Some cs ∧
        selects_top_k row Estimator.TOP_K vs cs ∧
        ∀ vs' cs', selects_top_k row Estimator.TOP_K vs' cs' →
                   vs' = vs ∧ cs' = cs.
Proof.
  intros Hrows. eexists _, _. split; [by apply top_k_Ok|].
  rewrite !length_fmap. split_and!; [done..|].
  intros i row Hi. rewrite !list_lookup_fmap, Hi. csimpl.
  eexists _, _. split_and!; [done..| |].
  - pose proof (Forall_lookup_1 _ _ _ _ Hrows Hi) as Hk. simpl in Hk.
    destruct (top_k_row_selects row _ Hk) as (vs & cs & Heq & Hsel).
    unfold top_k_row in Heq. rewrite decide_True in Heq by done.
    by injection Heq as <- <-.
  - intros vs' cs' Hsel%selects_top_k_unique.
    unfold top_k_row in Hsel. case_decide; [|done].
    by injection Hsel as <- <-.
Qed.

(** ** The Keras notebook *)

Lemma chunks_uniform {A} (n m : nat) (l : list A) :
  length l = m * n → Forall (fun x => length x = n) (chunks n m l).
Proof.
  revert l. induction m as [|m IH]; intros l Hl; simpl; constructor.
  - rewrite length_take. lia.
  - apply IH. rewrite length_drop. lia.
Qed.

Lemma concat_chunks {A} (n m : nat) (l : list A) :
  length l = m * n → concat (chunks n m l) = l.
Proof.
  revert l. induction m as [|m IH]; intros l Hl; simpl.
  - by destruct l.
  - rewrite IH by (rewrite length_drop; lia). apply take_drop.
Qed.

Section keras_facts.
Variable decode_jpeg : bytes -> nat -> option (tensor byte).
Variable mean : nat -> R.
Variable bgr : bool.

#[local] Abbreviation preprocess_pixel := (Keras.preprocess_pixel mean bgr).
#[local] Abbreviation preprocess_input := (Keras.preprocess_input mean bgr).
#[local] Abbreviation preprocess_image :=
  (Keras.preprocess_image decode_jpeg mean bgr).

Lemma length_preprocess_pixel (px : list R) :
  length (preprocess_pixel px) = length px.
Proof.
  unfold Keras.preprocess_pixel. rewrite length_imap.
  destruct bgr; [apply length_reverse|done].
Qed.

Lemma preprocess_pixel_rgb (r g b : R) :
  preprocess_pixel [r; g; b] =
  if bgr then [b - mean 0; g - mean 1; r - mean 2]%R
  else [r - mean 0; g - mean 1; b - mean 2]%R.
Proof. unfold Keras.preprocess_pixel. by destruct bgr. Qed.

Lemma preprocess_input_pixels (x : tensor R) (n : nat) :
  length (data x) = n * 3 →
  chunks 3 n (data (preprocess_input x)) =
  preprocess_pixel <$> chunks 3 n (data x).
Proof.
  intros Hlen. unfold Keras.preprocess_input. cbn [data].
  rewrite Hlen, Nat.div_mul by done.
  rewrite <- (length_chunks 3 n (data x)) at 1.
  rewrite <- (length_fmap preprocess_pixel).
  apply chunks_concat. apply Forall_fmap.
  eapply Forall_impl; [by apply chunks_uniform|].
  intros px Hpx. simpl. by rewrite length_preprocess_pixel.
Qed.

(** Whatever the means, some channel value leaves [[-0.5, 0.5]]. *)
Lemma preprocess_input_unbounded :
  ∃ image : tensor byte,
    shape image = [1; 1; 3] ∧ tensor_wf image ∧
    Exists (fun y => ¬ (-0.5 <= y <= 0.5)%R)
      (data (preprocess_input (tensor_map to_float image))).
Proof.
  destruct (Rle_dec (mean 0) 0.5) as [Hle|Hgt].
  - exists (Tensor [1; 1; 3] [xff; xff; xff]).
    split; [done|]. split; [done|].
    simpl. rewrite preprocess_pixel_rgb.
    destruct bgr; apply Exists_cons_hd; unfold to_float; simpl;
      intros [? ?]; lra.
  - exists (Tensor [1; 1; 3] [x00; x00; x00]).
    split; [done|]. split; [done|].
    simpl. rewrite preprocess_pixel_rgb.
    destruct bgr; apply Exists_cons_hd; unfold to_float; simpl;
      intros [? ?]; lra.
Qed.

(** C7. Policy B: the image keeps its shape, every pixel has the mean of
    each channel subtracted from its value, nothing is rescaled, the
    channels are reversed when [bgr] is set; and the values are not
    confined to [[-0.5, 0.5]]: some image has a channel outside of it. *)
Theorem preprocess_image_mean_subtracted
    (encoded_image : bytes) (image : tensor byte) (h w : nat) :
  decode_jpeg encoded_image 3 = Some image →
  shape image = [h; w; 3] →
  tensor_wf image →
  ∃ normalized,
    preprocess_image encoded_image = Ok normalized ∧
    shape normalized = [h; w; 3] ∧
    chunks 3 (h * w) (data normalized) =
      preprocess_pixel <$> chunks 3 (h * w) (to_float <$> data image) ∧
    (∀ r g b : R,
       preprocess_pixel [r; g; b] =
       if bgr then [b - mean 0; g - mean 1; r - mean 2]%R
       else [r - mean 0; g - mean 1; b - mean 2]%R) ∧
    ∃ other : tensor byte,
      shape other = [1; 1; 3] ∧ tensor_wf other ∧
      Exists (fun y => ¬ (-0.5 <= y <= 0.5)%R)
        (data (preprocess_input (tensor_map to_float other))).
Proof.
  intros Hdec Hshape Hwf. unfold Keras.preprocess_image. rewrite Hdec.
  eexists. split; [reflexivity|]. split; [exact Hshape|].
  split; [|split; [apply preprocess_pixel_rgb|
                   apply preprocess_input_unbounded]].
  apply preprocess_input_pixels. cbn [data tensor_map].
  rewrite length_fmap. unfold tensor_wf in Hwf. rewrite Hwf, Hshape.
  unfold numel. simpl. lia.
Qed.
End keras_facts.

(** ** Signatures *)

(** C9. Both notebooks export, under the key ['predict'], a prediction
    signature that takes one input [images], a vector of strings of any
    length, and returns the outputs [classes] and [probabilities]: for the
    Estimator notebook it is the signature [export_savedmodel] derives from
    [create_servable_estimator_spec] and [serving_input_receiver_fn], with
    5 [int32] classes and 5 [float] probabilities per image. They are the
    same signature once the two tensors the Keras notebook leaves open have
    these types. The Estimator notebook exports it under the default key
    as well, the Keras notebook under ['predict'] alone. *)
Theorem same_serving_contract
    (decode_jpeg : bytes -> nat -> option (tensor byte))
    (imagenet_resnet_v2 :
       nat -> nat -> Estimator.data_format -> tensor R -> bool
       -> list (list R))
    (top_k_probs top_k_classes : TensorInfo) :
  ∃ servable estimator keras,
    Estimator.exported decode_jpeg imagenet_resnet_v2 = Ok servable ∧
    Estimator.signatures servable !! "predict" = Some estimator ∧
    Keras.signature_def_map top_k_probs top_k_classes !! "predict"
      = Some keras ∧
    inputs estimator = {[ "images" := placeholder DT_STRING [None] ]} ∧
    inputs keras = inputs estimator ∧
    dom (outputs estimator) = {[ "classes"; "probabilities" ]} ∧
    dom (outputs keras) = dom (outputs estimator) ∧
    method_name keras = method_name estimator ∧
    outputs keras !! "classes" = Some top_k_classes ∧
    outputs keras !! "probabilities" = Some top_k_probs ∧
    outputs estimator !! "classes" =
      Some {| dtype := DT_INT32; tensor_shape := [None; Some 5] |} ∧
    outputs estimator !! "probabilities" =
      Some {| dtype := DT_FLOAT; tensor_shape := [None; Some 5] |} ∧
    (Some top_k_classes = outputs estimator !! "classes" →
     Some top_k_probs = outputs estimator !! "probabilities" →
     keras = estimator) ∧
    dom (Estimator.signatures servable) =
      {[ "predict"; "serving_default" ]} ∧
    Estimator.signatures servable !! "serving_default" = Some estimator ∧
    dom (Keras.signature_def_map top_k_probs top_k_classes) =
      {[ "predict" ]}.
Proof.
  destruct (exported_signatures decode_jpeg imagenet_resnet_v2)
    as (servable & Hexported & Hsignatures).
  exists servable. rewrite Hsignatures. clear Hsignatures.
  eexists _, _. split; [exact Hexported|]. clear Hexported. cbv zeta.
  split; [apply lookup_insert_eq|].
  split; [apply lookup_singleton_eq|].
  split_and!; try done.
  cbn [outputs predict_signature_def].
  rewrite lookup_insert_eq, lookup_insert_ne by done.
  rewrite lookup_singleton_eq.
  by intros [= ->] [= ->].
Qed.

(** ** Export *)


Lemma append_empty_r (s : string) : s +:+ EmptyString = s.
Proof.
  induction s as [|a s IH]; [done|].
  change (String a (s +:+ EmptyString) = String a s). by rewrite IH.
Qed.

Lemma append_char_assoc (acc : string) (c : ascii) (s : string) :
  (acc +:+ String c EmptyString) +:+ s = acc +:+ String c s.
Proof.
  induction acc as [|a acc IH]; [done|].
  change (String a ((acc +:+ String c EmptyString) +:+ s)
          = String a (acc +:+ String c s)).
  by rewrite IH.
Qed.

Lemma dir_prefixes_last (acc p : string) :
  acc +:+ p ∈ dir_prefixes acc p.
Proof.
  revert acc. induction p as [|c p IH]; intros acc; simpl.
  - rewrite append_empty_r. set_solver.
  - destruct (Ascii.eqb_spec c "/") as [->|_].
    + apply list_elem_of_further.
      rewrite <- (append_char_assoc acc "/" p). apply IH.
    + rewrite <- append_char_assoc. apply IH.
Qed.

Lemma make_dirs_keep (ds : list string) (fs : gmap string node) (p : string) :
  is_Some (fs !! p) → is_Some (foldl make_dir fs ds !! p).
Proof.
  revert fs. induction ds as [|d ds IH]; intros fs Hp; simpl; [done|].
  apply IH. unfold make_dir. destruct (fs !! d) eqn:Hd; [done|].
  destruct (decide (d = p)) as [->|Hne].
  - rewrite lookup_insert_eq. eauto.
  - by rewrite lookup_insert_ne.
Qed.

Lemma make_dirs_create (ds : list string) (fs : gmap string node) (p : string) :
  p ∈ ds → is_Some (foldl make_dir fs ds !! p).
Proof.
  revert fs. induction ds as [|d ds IH]; intros fs Hp; [set_solver|].
  simpl. apply elem_of_cons in Hp as [->|Hp]; [|by apply IH].
  apply make_dirs_keep. unfold make_dir.
  destruct (fs !! d) eqn:Hd; [by rewrite Hd|].
  rewrite lookup_insert_eq. eauto.
Qed.



(** ** Positions *)

Lemma pick_seq_app {A} (l1 l2 : list A) :
  pick (seq (length l1) (length l2)) (l1 ++ l2) = l2.
Proof.
  revert l1. induction l2 as [|x l2 IH]; intros l1; [done|].
  unfold pick. csimpl. rewrite list_lookup_middle by done. csimpl.
  f_equal. specialize (IH (l1 ++ [x])).
  rewrite length_app, Nat.add_1_r, <- app_assoc in IH. exact IH.
Qed.

(** A permutation of the positions picks a permutation of the list. *)
Lemma pick_Permutation {A} (σ : list nat) (l : list A) :
  σ ≡ₚ seq 0 (length l) → pick σ l ≡ₚ l.
Proof.
  intros Hσ. unfold pick. rewrite Hσ.
  by rewrite <- (pick_seq_app [] l) at 2.
Qed.

(** ** The model at work *)

Example top_k_row_ties :
  top_k_row [3; 7; 7; 1; 9; 7]%Z 3 = Ok ([9; 7; 7]%Z, [4; 1; 2]).
Proof. reflexivity. Qed.

Example top_k_row_short :
  top_k_row [3; 7]%Z 3 = Raise (InvalidArgumentError TopKV2).
Proof. reflexivity. Qed.

Example top_k_matrix :
  top_k [[3; 7; 7; 1; 9; 7]; [1; 2; 3; 4; 5; 6]]%Z Estimator.TOP_K =
  Ok ([[9; 7; 7; 7; 3]; [6; 5; 4; 3; 2]]%Z,
      [[4; 1; 2; 5; 0]; [5; 4; 3; 2; 1]]).
Proof. reflexivity. Qed.

Example reshape_wildcard :
  reshape (Tensor [2; 2; 3] (seq 0 12)) [(-1)%Z; 3%Z; 2%Z] =
  Ok (Tensor [2; 3; 2] (seq 0 12)).
Proof. reflexivity. Qed.

Example reshape_mismatch :
  reshape (Tensor [2; 2; 3] (seq 0 12)) [(-1)%Z; 5%Z] =
  Raise (InvalidArgumentError Reshape).
Proof. reflexivity. Qed.

Example pack_mixed_shapes :
  pack [Tensor [2; 3] (seq 0 6); Tensor [3; 2] (seq 6 6)] =
  Raise (InvalidArgumentError TensorArrayStack).
Proof. reflexivity. Qed.

Example serving_dir_of_notebook :
  Keras.SERVING_DIR = "keras_resnet_servable/1".
Proof. reflexivity. Qed.

Example export_on_empty_file_system (i : TensorInfo) :
  dom (Keras.export i i ∅).2 =
  {[ "keras_resnet_servable"; "keras_resnet_servable/1";
     "keras_resnet_servable/1/variables";
     "keras_resnet_servable/1/variables/variables.index";
     "keras_resnet_servable/1/variables/variables.data-00000-of-00001";
     "keras_resnet_servable/1/saved_model.pb" ]}.
Proof.
  unfold Keras.export, Keras.export_to. apply set_eq. intros p.
  vm_compute dom. set_solver.
Qed.

Lemma Sample_valid :
  Forall (Estimator.valid_image Sample.decode_jpeg) Sample.images.
Proof.
  repeat constructor; (eexists; split; [reflexivity|]; split;
    [reflexivity|apply length_replicate]).
Qed.

Lemma Sample_shaped : Estimator.network_shaped Sample.imagenet_resnet_v2.
Proof.
  intros resnet_size num_classes format inputs is_training. simpl.
  unfold Sample.imagenet_resnet_v2. split.
  - rewrite length_fmap. unfold unstack.
    destruct (shape inputs); [done|apply length_chunks].
  - apply Forall_fmap, Forall_forall. intros image _. simpl.
    unfold Sample.score. by rewrite length_fmap, length_seq.
Qed.

Lemma Sample_rowwise :
  Estimator.network_rowwise Sample.imagenet_resnet_v2
    (Sample.score Estimator._LABEL_CLASSES).
Proof. intros inputs. reflexivity. Qed.

(** The response has the keys and the static types of the signature. *)
Lemma response_has_info (decode_jpeg : bytes -> nat -> option (tensor byte))
    (imagenet_resnet_v2 :
       nat -> nat -> Estimator.data_format -> tensor R -> bool
       -> list (list R))
    (images : list bytes) :
  images ≠ [] →
  Forall (Estimator.valid_image decode_jpeg) images →
  Estimator.network_shaped imagenet_resnet_v2 →
  ∃ servable signature response,
    Estimator.exported decode_jpeg imagenet_resnet_v2 = Ok servable ∧
    Estimator.signatures servable !! "predict" = Some signature ∧
    Estimator.serve decode_jpeg imagenet_resnet_v2 "predict"
      (Estimator.request images) = Ok response ∧
    dom response = dom (outputs signature) ∧
    ∀ k v i, response !! k = Some v →
             outputs signature !! k = Some i → fits v i = true.
Proof.
  intros Hne Hv Hnet.
  destruct (serve_valid_lengths _ _ _ Hne Hv Hnet)
    as (classes & probabilities & -> & _ & _ & Hcs & Hps).
  destruct (exported_signatures decode_jpeg imagenet_resnet_v2)
    as (servable & Hexported & Hsignatures).
  exists servable. rewrite Hsignatures. clear Hsignatures.
  eexists _, _. split; [exact Hexported|]. clear Hexported. cbv zeta.
  split; [apply lookup_insert_eq|]. split; [done|]. split; [done|].
  assert (∀ A (m : list (list A)),
    Forall (fun r => length r = 5) m →
    forallb (fun r => dim_fits (Some 5) (length r)) m = true) as Hrows.
  { intros A m Hm. induction Hm as [|r m Hr _ IH]; [done|].
    simpl. by rewrite bool_decide_true. }
  cbn [outputs predict_signature_def]. intros k v i Hk Hi.
  destruct (decide (k = "classes")) as [->|Hne1].
  - simplify_map_eq. by apply Hrows.
  - destruct (decide (k = "probabilities")) as [->|Hne2];
      simplify_map_eq. by apply Hrows.
Qed.

(** The empty batch is admitted, and it is not answered: stacking the
    results of [tf.map_fn] fails when there is no image to give the rows
    their shape. *)
Lemma empty_batch_fails :
  Forall (Estimator.valid_image Sample.decode_jpeg) [] ∧
  Estimator.network_shaped Sample.imagenet_resnet_v2 ∧
  Estimator.serve Sample.decode_jpeg Sample.imagenet_resnet_v2 "predict"
    (Estimator.request []) = Raise (UnimplementedError TensorArrayStack) ∧
  ¬ ∃ classes probabilities,
      Estimator.serve Sample.decode_jpeg Sample.imagenet_resnet_v2 "predict"
        (Estimator.request []) =
        Ok {[ "classes" := Int32s classes;
              "probabilities" := Floats probabilities ]} ∧
      length classes = length (@nil bytes) ∧
      length probabilities = length (@nil bytes) ∧
      Forall (fun cs => length cs = 5) classes ∧
      Forall (fun ps => length ps = 5) probabilities.
Proof.
  assert (Estimator.serve Sample.decode_jpeg Sample.imagenet_resnet_v2
            "predict" (Estimator.request []) =
          Raise (UnimplementedError TensorArrayStack)) as Hserve.
  { by rewrite serve_predictions. }
  split; [constructor|]. split; [exact Sample_shaped|].
  split; [exact Hserve|].
  intros (classes & probabilities & Hok & _). by rewrite Hserve in Hok.
Qed.

(** ** The theorems on the sample codec and network *)

Lemma response_lengths_witness :
  ∃ classes probabilities,
    Estimator.serve Sample.decode_jpeg Sample.imagenet_resnet_v2 "predict"
      (Estimator.request Sample.images) =
      Ok {[ "classes" := Int32s classes;
            "probabilities" := Floats probabilities ]} ∧
    length classes = length Sample.images ∧
    length probabilities = length Sample.images ∧
    Forall (fun cs => length cs = 5) classes ∧
    Forall (fun ps => length ps = 5) probabilities.
Proof.
  apply (response_lengths Sample.decode_jpeg Sample.imagenet_resnet_v2
           Sample.images).
  - discriminate.
  - repeat constructor; (eexists; split; [reflexivity|]; split;
      [reflexivity|apply length_replicate]).
  - exact Sample_shaped.
Defined.


Lemma probabilities_sorted_and_normalized_witness :
  ∃ classes probabilities,
    Estimator.serve Sample.decode_jpeg Sample.imagenet_resnet_v2 "predict"
      (Estimator.request Sample.images) =
      Ok {[ "classes" := Int32s classes;
            "probabilities" := Floats probabilities ]} ∧
    length probabilities = length Sample.images ∧
    Forall (fun ps =>
      length ps = 5 ∧
      StronglySorted (fun p q => (q <= p)%R) ps ∧
      (Rabs (Rsum ps - 1) <= 1e-5)%R) probabilities.
Proof.
  apply (probabilities_sorted_and_normalized Sample.decode_jpeg
           Sample.imagenet_resnet_v2 Sample.images).
  - discriminate.
  - repeat constructor; (eexists; split; [reflexivity|]; split;
      [reflexivity|apply length_replicate]).
  - exact Sample_shaped.
Defined.

Lemma malformed_image_fails_batch_witness :
  Estimator.serve Sample.decode_jpeg Sample.imagenet_resnet_v2 "predict"
    (Estimator.request (Sample.images ++ [Sample.truncated])) =
  Raise (InvalidArgumentError DecodeJpeg).
Proof.
  apply (malformed_image_fails_batch Sample.decode_jpeg
           Sample.imagenet_resnet_v2).
  simpl. right. right. left. reflexivity.
Defined.

Lemma preprocess_image_centered_unit_witness :
  ∃ normalized,
    Estimator.preprocess_image Sample.decode_jpeg [xff; xd8; x10]
      = Ok normalized ∧
    shape normalized = [224; 224; 3] ∧
    Forall (fun x => (-0.5 <= x <= 0.5)%R) (data normalized).
Proof.
  destruct (preprocess_image_centered_unit Sample.decode_jpeg
              [xff; xd8; x10] _ eq_refl)
    as (normalized & Hok & Hshape & _ & _ & Hrange).
  exists normalized. repeat split; assumption.
Defined.

Lemma predictions_follow_images_witness :
  ∃ classes probabilities,
    Estimator.serve Sample.decode_jpeg Sample.imagenet_resnet_v2 "predict"
      (Estimator.request Sample.images) =
      Ok {[ "classes" := Int32s classes;
            "probabilities" := Floats probabilities ]} ∧
    Estimator.serve Sample.decode_jpeg Sample.imagenet_resnet_v2 "predict"
      (Estimator.request (pick [1; 0] Sample.images)) =
      Ok {[ "classes" := Int32s (pick [1; 0] classes);
            "probabilities" := Floats (pick [1; 0] probabilities) ]}.
Proof.
  destruct (predictions_follow_images Sample.decode_jpeg
              Sample.imagenet_resnet_v2
              (Sample.score Estimator._LABEL_CLASSES) Sample.images [1; 0])
    as (classes & probabilities & Hserve & Hpick & _).
  - discriminate.
  - discriminate.
  - repeat constructor; (eexists; split; [reflexivity|]; split;
      [reflexivity|apply length_replicate]).
  - intros inputs. reflexivity.
  - intros image. unfold Sample.score. rewrite length_fmap.
    apply length_seq.
  - exists classes, probabilities. split; assumption.
Defined.

Lemma top_k_selection_deterministic_witness :
  ∃ values indices,
    top_k [[1; 3; 3; 0; 2; 3; 5]; [0; 0; 0; 0; 0]]%R Estimator.TOP_K
      = Ok (values, indices) ∧
    length values = 2 ∧ length indices = 2.
Proof.
  destruct (top_k_selection_deterministic
              [[1; 3; 3; 0; 2; 3; 5]; [0; 0; 0; 0; 0]]%R)
    as (values & indices & Htop & Hlv & Hli & _).
  - repeat constructor; simpl; unfold Estimator.TOP_K; lia.
  - exists values, indices. repeat split; assumption.
Defined.

Lemma preprocess_image_mean_subtracted_witness :
  ∃ normalized,
    Keras.preprocess_image Sample.decode_jpeg Keras.imagenet_mean true
      [xff; xd8; x10] = Ok normalized ∧
    shape normalized = [224; 224; 3].
Proof.
  destruct (preprocess_image_mean_subtracted Sample.decode_jpeg
              Keras.imagenet_mean true [xff; xd8; x10] _ 224 224 eq_refl)
    as (normalized & Hok & Hshape & _).
  - reflexivity.
  - apply length_replicate.
  - exists normalized. split; assumption.
Defined.


(** * Further properties of the notebooks *)

(** ** Scores under an increasing map *)

Section top_k_monotone.
Context `{Score A} `{Score B}.
Variable f : A -> B.
Hypothesis f_mono : ∀ x y, score_lt x y ↔ score_lt (f x) (f y).

#[local] Abbreviation on_score := (prod_map f (fun i : nat => i)).

Lemma insert_desc_monotone (x : A * nat) (l : list (A * nat)) :
  insert_desc (on_score x) (on_score <$> l) = on_score <$> insert_desc x l.
Proof using f_mono.
  induction l as [|y l IH]; csimpl; [done|].
  destruct (decide (score_lt x.1 y.1)) as [Hlt|Hlt].
  - rewrite decide_True by by apply f_mono. csimpl. by rewrite IH.
  - rewrite decide_False; [done|]. intros Hlt'. by apply f_mono in Hlt'.
Qed.

Lemma sort_desc_monotone (l : list (A * nat)) :
  sort_desc (on_score <$> l) = on_score <$> sort_desc l.
Proof using f_mono.
  induction l as [|x l IH]; csimpl; [done|].
  by rewrite IH, insert_desc_monotone.
Qed.

Lemma columns_monotone (row : list A) :
  columns (f <$> row) = on_score <$> columns row.
Proof. unfold columns. by rewrite imap_fmap, fmap_imap. Qed.

Lemma top_k_entries_monotone (row : list A) (k : nat) :
  top_k_entries (f <$> row) k = on_score <$> top_k_entries row k.
Proof using f_mono.
  unfold top_k_entries.
  by rewrite columns_monotone, sort_desc_monotone, fmap_take.
Qed.

Lemma top_k_row_monotone (row : list A) (k : nat) values indices :
  top_k_row row k = Ok (values, indices) →
  top_k_row (f <$> row) k = Ok (f <$> values, indices).
Proof using f_mono.
  unfold top_k_row. rewrite length_fmap.
  case_decide; [|done]. intros [= <- <-].
  rewrite top_k_entries_monotone. f_equal.
  by rewrite <- !list_fmap_compose.
Qed.
End top_k_monotone.

(** ** The reduction of lines 230 and 231 *)

Section reduction_facts.
#[local] Open Scope R_scope.

Lemma Rsum_scale (es : list R) (a : R) :
  Rsum ((fun e => e * a) <$> es) = Rsum es * a.
Proof. induction es as [|e es IH]; csimpl; [lra|]. rewrite IH. lra. Qed.

Lemma softmax_row_shift (logits : list R) (c : R) :
  softmax_row ((fun x => x + c) <$> logits) = softmax_row logits.
Proof.
  destruct (decide (logits = [])) as [->|Hne]; [done|].
  pose proof (Rsum_exp_pos _ Hne) as Hpos.
  pose proof (exp_pos c) as Hc.
  unfold softmax_row.
  assert (exp <$> ((fun x => x + c) <$> logits)
          = (fun e => e * exp c) <$> (exp <$> logits)) as ->.
  { rewrite <- !list_fmap_compose. apply list_fmap_ext.
    intros _ x _. simpl. apply exp_plus. }
  rewrite Rsum_scale, <- !list_fmap_compose.
  apply list_fmap_ext. intros _ x _. simpl. field. split; lra.
Qed.

Lemma shift_monotone (c x y : R) : x < y ↔ x + c < y + c.
Proof. lra. Qed.

Lemma full_softmax_monotone (s x y : R) :
  0 < s → x < y ↔ exp x / s < exp y / s.
Proof.
  intros Hs. pose proof (Rinv_0_lt_compat _ Hs) as Hinv. split.
  - intros Hxy%exp_increasing. by apply Rmult_lt_compat_r.
  - intros Hlt. destruct (Rlt_le_dec x y) as [|Hyx]; [done|].
    assert (exp y <= exp x) as Hle.
    { destruct Hyx as [?%exp_increasing| ->]; lra. }
    apply (Rmult_le_compat_r (/ s)) in Hle; [|lra].
    unfold Rdiv in Hlt. lra.
Qed.

(** The selection on one row, as [top_k_row] returns it. *)
Lemma top_k_row_Ok (row : list R) (k : nat) :
  (k ≤ length row)%nat →
  top_k_row row k = Ok ((top_k_entries row k).*1, (top_k_entries row k).*2).
Proof. intros Hk. unfold top_k_row. by rewrite decide_True. Qed.

Lemma softmax_row_renormalized (values : list R) (s : R) :
  0 < s → values ≠ [] →
  softmax_row values =
  (fun q => q / Rsum ((fun x => exp x / s) <$> values))
    <$> ((fun x => exp x / s) <$> values).
Proof.
  intros Hs Hne. pose proof (Rsum_exp_pos _ Hne) as Hpos.
  unfold softmax_row. rewrite <- !list_fmap_compose.
  rewrite (list_fmap_compose exp (fun e => e / s)), Rsum_div.
  apply list_fmap_ext. intros _ x _. simpl. field. split; lra.
Qed.
End reduction_facts.

(** X1. Shifting all the logits of a row by one constant changes neither
    the classes reported for it nor its probabilities. *)
Theorem logit_shift_invariant (row : list R) (c : R) :
  Estimator.TOP_K ≤ length row →
  ∃ values values' classes,
    top_k_row row Estimator.TOP_K = Ok (values, classes) ∧
    top_k_row ((fun x => (x + c)%R) <$> row) Estimator.TOP_K
      = Ok (values', classes) ∧
    values' = (fun x => (x + c)%R) <$> values ∧
    softmax_row values' = softmax_row values.
Proof.
  intros Hk. eexists _, _, _. split; [by apply top_k_row_Ok|].
  split; [|split; [reflexivity|apply softmax_row_shift]].
  apply (top_k_row_monotone (fun x => (x + c)%R)).
  - intros x y. apply shift_monotone.
  - by apply top_k_row_Ok.
Qed.

(** X2. The classes reported for a row are the 5 most probable classes of
    the softmax of the whole row, in the same order, and the reported
    probabilities are those 5 probabilities divided by their sum. *)
Theorem classes_of_full_softmax (row : list R) :
  Estimator.TOP_K ≤ length row →
  ∃ values full classes,
    top_k_row row Estimator.TOP_K = Ok (values, classes) ∧
    top_k_row (softmax_row row) Estimator.TOP_K = Ok (full, classes) ∧
    full = (fun x => (exp x / Rsum (exp <$> row))%R) <$> values ∧
    softmax_row values = (fun q => (q / Rsum full)%R) <$> full.
Proof.
  intros Hk.
  assert (row ≠ []) as Hrow.
  { intros ->. unfold Estimator.TOP_K in Hk. simpl in Hk. lia. }
  pose proof (Rsum_exp_pos _ Hrow) as Hs.
  eexists _, _, _. split; [by apply top_k_row_Ok|].
  split; [|split; [reflexivity|]].
  - unfold softmax_row. rewrite <- list_fmap_compose.
    apply (top_k_row_monotone (fun x => (exp x / Rsum (exp <$> row))%R)).
    + intros x y. by apply full_softmax_monotone.
    + by apply top_k_row_Ok.
  - apply softmax_row_renormalized; [done|].
    intros Hnil%(f_equal length). rewrite length_fmap in Hnil.
    pose proof (length_top_k_entries row _ Hk) as Hlen.
    unfold entry in *. simpl in Hnil. rewrite Hlen in Hnil. done.
Qed.

Lemma top_k_entries_first (row : list R) (x : R * nat) (l : list (R * nat))
    (c : nat) (v : R) :
  top_k_entries row Estimator.TOP_K = x :: l →
  row !! c = Some v →
  (v <= x.1)%R ∧ (v = x.1 → x.2 ≤ c).
Proof.
  intros HT Hc.
  pose proof (top_k_entries_sorted row Estimator.TOP_K) as Hs.
  pose proof (top_k_entries_lookup row Estimator.TOP_K) as Hin.
  pose proof (top_k_entries_best row Estimator.TOP_K x (v, c)) as Hbest.
  rewrite HT in Hs, Hin, Hbest.
  apply StronglySorted_cons in Hs as [Hx _].
  assert (precedes x (v, c) ∨ (v, c) = x) as [Hp| <-].
  { destruct (decide (c ∈ (x :: l).*2)) as [Hin'|Hout].
    - apply list_elem_of_fmap in Hin' as (y & -> & Hy).
      assert (y = (v, y.2)) as Hyv.
      { pose proof (Hin y Hy) as Hy'. rewrite Hc in Hy'.
        destruct y. simpl in *. congruence. }
      rewrite <- Hyv.
      apply elem_of_cons in Hy as [->|Hy]; [by right|left].
      by eapply Forall_forall in Hx.
    - left. apply Hbest; [set_solver|done|done]. }
  - destruct Hp as [Hlt|[Heq Hlt]]; simpl in *.
    + unfold score_lt in Hlt. simpl in Hlt. split; [lra|intros ->; lra].
    + split; [lra|intros _; lia].
  - simpl. split; [lra|done].
Qed.

(** ** The response, row by row *)

Section response_facts.
Variable decode_jpeg : bytes -> nat -> option (tensor byte).
Variable imagenet_resnet_v2 :
  nat -> nat -> Estimator.data_format -> tensor R -> bool -> list (list R).

#[local] Abbreviation valid_image := (Estimator.valid_image decode_jpeg).
#[local] Abbreviation logits_of :=
  (Estimator.logits_of decode_jpeg imagenet_resnet_v2).
#[local] Abbreviation serve := (Estimator.serve decode_jpeg imagenet_resnet_v2).
#[local] Abbreviation network_shaped :=
  (Estimator.network_shaped imagenet_resnet_v2).
#[local] Abbreviation request := Estimator.request.
#[local] Abbreviation TOP_K := Estimator.TOP_K.

Lemma serve_valid_row (images : list bytes) :
  images ≠ [] → Forall valid_image images → network_shaped →
  ∃ classes probabilities,
    serve "predict" (request images) =
      Ok {[ "classes" := Int32s classes;
            "probabilities" := Floats probabilities ]} ∧
    ∀ i row, logits_of images !! i = Some row →
      length row = Estimator._LABEL_CLASSES ∧
      classes !! i = Some (top_k_entries row TOP_K).*2 ∧
      probabilities !! i = Some (softmax_row (top_k_entries row TOP_K).*1).
Proof.
  intros Hne Hv Hnet. eexists _, _. split; [by apply serve_valid|].
  intros i row Hi.
  destruct (network_shaped_rows decode_jpeg _ images Hnet) as [_ Hrows].
  split; [exact (Forall_lookup_1 _ _ _ _ Hrows Hi)|].
  unfold softmax. by rewrite !list_lookup_fmap, Hi.
Qed.

(** X3. In the answer to a batch of at least one admitted image, the 5
    classes of every image are pairwise distinct and lie between 0 and
    1000. *)
Theorem classes_distinct_in_range (images : list bytes) :
  images ≠ [] → Forall valid_image images → network_shaped →
  ∃ classes probabilities,
    serve "predict" (request images) =
      Ok {[ "classes" := Int32s classes;
            "probabilities" := Floats probabilities ]} ∧
    Forall (fun cs => NoDup cs ∧ Forall (fun c => c ≤ 1000) cs) classes.
Proof.
  intros Hne Hv Hnet. eexists _, _. split; [by apply serve_valid|].
  destruct (network_shaped_rows decode_jpeg _ images Hnet) as [_ Hrows].
  apply Forall_fmap. eapply Forall_impl; [exact Hrows|].
  intros row Hrow. simpl. split; [apply top_k_entries_NoDup|].
  apply Forall_fmap, Forall_forall. intros x Hx%top_k_entries_lookup.
  apply lookup_lt_Some in Hx. simpl. rewrite Hrow in Hx.
  unfold Estimator._LABEL_CLASSES in Hx. lia.
Qed.

(** X4. In the answer to a batch of at least one admitted image, every
    probability lies between 0 and 1. *)
Theorem probabilities_in_unit_interval (images : list bytes) :
  images ≠ [] → Forall valid_image images → network_shaped →
  ∃ classes probabilities,
    serve "predict" (request images) =
      Ok {[ "classes" := Int32s classes;
            "probabilities" := Floats probabilities ]} ∧
    Forall (Forall (fun p => (0 <= p <= 1)%R)) probabilities.
Proof.
  intros Hne Hv Hnet. eexists _, _. split; [by apply serve_valid|].
  unfold softmax. rewrite !Forall_fmap. apply Forall_forall.
  intros row _. simpl.
  eapply Forall_impl; [apply softmax_row_bounds|].
  intros p Hp. simpl in Hp. lra.
Qed.

(** X5. In the answer to a batch of at least one admitted image, the first
    class reported for an image is a column of the largest logit of its
    row, and the lowest such column. *)
Theorem first_class_is_argmax (images : list bytes) :
  images ≠ [] → Forall valid_image images → network_shaped →
  ∃ classes probabilities,
    serve "predict" (request images) =
      Ok {[ "classes" := Int32s classes;
            "probabilities" := Floats probabilities ]} ∧
    ∀ i row, logits_of images !! i = Some row →
      ∃ c0 cs v0,
        classes !! i = Some (c0 :: cs) ∧
        row !! c0 = Some v0 ∧
        ∀ c v, row !! c = Some v → (v <= v0)%R ∧ (v = v0 → c0 ≤ c).
Proof.
  intros Hne Hv Hnet.
  destruct (serve_valid_row images Hne Hv Hnet)
    as (classes & probabilities & Hserve & Hrows).
  exists classes, probabilities. split; [done|].
  intros i row Hi. destruct (Hrows i row Hi) as (Hlen & Hcs & _).
  assert (length (top_k_entries row TOP_K) = TOP_K) as HlT.
  { apply length_top_k_entries. rewrite Hlen.
    unfold Estimator.TOP_K, Estimator._LABEL_CLASSES. lia. }
  destruct (top_k_entries row TOP_K) as [|x l] eqn:HT; [done|].
  exists x.2, l.*2, x.1. split; [done|]. split.
  - apply (top_k_entries_lookup row TOP_K). rewrite HT. by left.
  - intros c v Hc. by eapply top_k_entries_first.
Qed.

(** X6. In the answer to a batch of at least one admitted image, the
    probabilities of an image are a function of its reported classes and
    its logits: the probability beside class [c] is [exp] of the logit of
    [c] over the sum of [exp] of the logits of the 5 reported classes. *)
Theorem probabilities_from_classes (images : list bytes) :
  images ≠ [] → Forall valid_image images → network_shaped →
  ∃ classes probabilities,
    serve "predict" (request images) =
      Ok {[ "classes" := Int32s classes;
            "probabilities" := Floats probabilities ]} ∧
    ∀ i row, logits_of images !! i = Some row →
      ∃ cs,
        classes !! i = Some cs ∧
        let logit c := default 0%R (row !! c) in
        probabilities !! i =
          Some ((fun c => (exp (logit c)
                           / Rsum ((fun c' => exp (logit c')) <$> cs))%R)
                  <$> cs).
Proof.
  intros Hne Hv Hnet.
  destruct (serve_valid_row images Hne Hv Hnet)
    as (classes & probabilities & Hserve & Hrows).
  exists classes, probabilities. split; [done|].
  intros i row Hi. destruct (Hrows i row Hi) as (_ & Hcs & Hps).
  eexists. split; [exact Hcs|]. simpl. rewrite Hps. f_equal.
  assert ((top_k_entries row TOP_K).*1 =
          (fun c => default 0%R (row !! c)) <$> (top_k_entries row TOP_K).*2)
    as ->.
  { rewrite <- list_fmap_compose. apply list_fmap_ext.
    intros _ x Hx%list_elem_of_lookup_2%top_k_entries_lookup. simpl.
    by rewrite Hx. }
  unfold softmax_row. by rewrite <- !list_fmap_compose.
Qed.
End response_facts.

(** ** Requests *)

Lemma numel_cons (n : nat) (s : list nat) : numel (n :: s) = n * numel s.
Proof. reflexivity. Qed.


Lemma same_shape_Forall {A} (s : list nat) (ts : list (tensor A)) :
  same_shape s ts = true ↔ Forall (fun t => shape t = s) ts.
Proof.
  induction ts as [|t ts IH]; simpl.
  - split; [constructor|done].
  - rewrite andb_true_iff, bool_decide_eq_true, IH, Forall_cons. done.
Qed.



Lemma pack_data {A} (ts : list (tensor A)) (t : tensor A) :
  pack ts = Ok t → data t = concat (data <$> ts).
Proof.
  unfold pack. destruct ts as [|t' ts]; [by intros [= <-]|].
  destruct (same_shape _ _); [|done]. by intros [= <-].
Qed.

Lemma reshape_Raise {A} (t : tensor A) (s : list Z) (e : tf_error) :
  reshape t s = Raise e → e = InvalidArgumentError Reshape.
Proof.
  unfold reshape. repeat case_match; congruence.
Qed.

Lemma reshape_batch_inv {A} (t t' : tensor A) (h w c : nat) :
  0 < h → 0 < w → 0 < c →
  reshape t [(-1)%Z; Z.of_nat h; Z.of_nat w; Z.of_nat c] = Ok t' →
  ∃ n, t' = Tensor [n; h; w; c] (data t) ∧
       length (data t) = n * numel [h; w; c].
Proof.
  intros Hh Hw Hc. unfold reshape.
  assert (wildcards [(-1)%Z; Z.of_nat h; Z.of_nat w; Z.of_nat c] = 1) as ->.
  { unfold wildcards. rewrite filter_cons_True by done.
    rewrite !filter_cons_False by lia. done. }
  assert (known_dims [(-1)%Z; Z.of_nat h; Z.of_nat w; Z.of_nat c]
          = [h; w; c]) as ->.
  { unfold known_dims. rewrite filter_cons_False by (intros ?; done).
    rewrite !filter_cons_True by lia. csimpl. by rewrite !Nat2Z.id. }
  assert (0 < numel [h; w; c]) as Hpos.
  { apply numel_pos. repeat constructor; done. }
  rewrite decide_False by lia. case_decide as Hmod; [|done].
  intros [= <-]. exists (length (data t) `div` numel [h; w; c]).
  split.
  - f_equal. csimpl. unfold fill_dim. rewrite decide_True by done.
    rewrite !decide_False by lia. by rewrite !Nat2Z.id.
  - pose proof (Nat.Div0.div_mod (length (data t)) (numel [h; w; c])) as Hd.
    rewrite Hmod in Hd. lia.
Qed.

Section request_facts.
Variable decode_jpeg : bytes -> nat -> option (tensor byte).
Variable imagenet_resnet_v2 :
  nat -> nat -> Estimator.data_format -> tensor R -> bool -> list (list R).

#[local] Abbreviation preprocess_image :=
  (Estimator.preprocess_image decode_jpeg).
#[local] Abbreviation valid_image := (Estimator.valid_image decode_jpeg).
#[local] Abbreviation pixels := (Estimator.pixels decode_jpeg).
#[local] Abbreviation resnet_model_fn :=
  (Estimator.resnet_model_fn decode_jpeg imagenet_resnet_v2).
#[local] Abbreviation predictions_of :=
  (Estimator.predictions_of decode_jpeg imagenet_resnet_v2).
#[local] Abbreviation serve := (Estimator.serve decode_jpeg imagenet_resnet_v2).
#[local] Abbreviation network_shaped :=
  (Estimator.network_shaped imagenet_resnet_v2).
#[local] Abbreviation request := Estimator.request.
#[local] Abbreviation image_shape :=
  [Estimator._DEFAULT_IMAGE_SIZE; Estimator._DEFAULT_IMAGE_SIZE; 3].



Lemma map_result_pixels (images : list bytes) (ts : list (tensor R)) :
  map_result preprocess_image images = Ok ts →
  data <$> ts = pixels <$> images.
Proof.
  intros Hts%map_result_inv.
  induction Hts as [|x t l ts Hx _ IH]; csimpl; [done|].
  rewrite IH. f_equal. unfold Estimator.pixels. by rewrite Hx.
Qed.

(** X10. Whatever the sizes of the pictures, when lines 203 to 207
    succeed the network receives a well-formed tensor of shape
    [[n; 224; 224; 3]] that holds the normalized pixels of the images of
    the request in their order. *)
Theorem processed_images_shape (images : list bytes) (t : tensor R) :
  (processed_images ← map_fn preprocess_image images;
   reshape (stack processed_images)
     [(-1)%Z; Z.of_nat Estimator._DEFAULT_IMAGE_SIZE;
      Z.of_nat Estimator._DEFAULT_IMAGE_SIZE; 3%Z]) = Ok t →
  ∃ n,
    shape t = n :: image_shape ∧
    tensor_wf t ∧
    data t = concat (pixels <$> images).
Proof.
  unfold map_fn.
  destruct (map_result preprocess_image images) as [ts|e] eqn:Hts;
    csimpl; [|done].
  destruct (pack ts) as [p|e] eqn:Hp; csimpl; [|done].
  intros Hr. apply (reshape_batch_inv _ _ _ _ 3) in Hr as (n & -> & Hlen);
    [|unfold Estimator._DEFAULT_IMAGE_SIZE; lia..].
  exists n. split; [done|]. split.
  - unfold tensor_wf. cbn [data shape]. by rewrite numel_cons.
  - cbn [data]. unfold stack.
    by rewrite (pack_data _ _ Hp), (map_result_pixels _ _ Hts).
Qed.
End request_facts.

(** ** Batches *)

Lemma to_float_inj (v w : byte) : to_float v = to_float w → v = w.
Proof.
  unfold to_float. intros Heq%eq_IZR%N2Z.inj.
  pose proof (Byte.of_to_N v) as Hv. rewrite Heq, Byte.of_to_N in Hv.
  congruence.
Qed.

Section batch_facts.
Variable decode_jpeg : bytes -> nat -> option (tensor byte).
Variable imagenet_resnet_v2 :
  nat -> nat -> Estimator.data_format -> tensor R -> bool -> list (list R).

#[local] Abbreviation preprocess_image :=
  (Estimator.preprocess_image decode_jpeg).
#[local] Abbreviation valid_image := (Estimator.valid_image decode_jpeg).
#[local] Abbreviation pixels := (Estimator.pixels decode_jpeg).
#[local] Abbreviation predictions_of :=
  (Estimator.predictions_of decode_jpeg imagenet_resnet_v2).
#[local] Abbreviation serve := (Estimator.serve decode_jpeg imagenet_resnet_v2).
#[local] Abbreviation network_shaped :=
  (Estimator.network_shaped imagenet_resnet_v2).
#[local] Abbreviation request := Estimator.request.
#[local] Abbreviation image_shape :=
  [Estimator._DEFAULT_IMAGE_SIZE; Estimator._DEFAULT_IMAGE_SIZE; 3].
#[local] Abbreviation TOP_K := Estimator.TOP_K.

(** The image [preprocess_image] returns for a stream, when it decodes. *)
#[local] Abbreviation normalized_of := (fun x : bytes =>
  match decode_jpeg x 3 with
  | Some image => tensor_map (fun v => to_float v / 255.0 - 0.5)%R image
  | None => Tensor [] []
  end).

Lemma map_result_decodable (images : list bytes) :
  Forall (fun x => is_Some (decode_jpeg x 3)) images →
  map_result preprocess_image images = Ok (normalized_of <$> images).
Proof.
  intros Hdec. apply map_result_Ok.
  eapply Forall_impl; [exact Hdec|]. intros x [image Hx].
  unfold Estimator.preprocess_image. by rewrite Hx.
Qed.

(** X11. A batch whose pictures all decode but do not all have the same
    size is not served: the results of [tf.map_fn] cannot be packed. *)
Theorem mixed_sizes_fail (images : list bytes) (x y : bytes)
    (image_x image_y : tensor byte) :
  Forall (fun x => is_Some (decode_jpeg x 3)) images →
  x ∈ images → y ∈ images →
  decode_jpeg x 3 = Some image_x →
  decode_jpeg y 3 = Some image_y →
  shape image_x ≠ shape image_y →
  serve "predict" (request images) =
  Raise (InvalidArgumentError TensorArrayStack).
Proof.
  intros Hdec Hx Hy Hdx Hdy Hne. rewrite serve_predictions.
  unfold Estimator.predictions_of, map_fn. csimpl.
  rewrite (map_result_decodable _ Hdec). csimpl.
  assert (∀ s, ¬ Forall (fun t => shape t = s) (normalized_of <$> images))
    as Hmixed.
  { intros s Hall. rewrite Forall_fmap, Forall_forall in Hall.
    pose proof (Hall x Hx) as Hsx. pose proof (Hall y Hy) as Hsy.
    simpl in Hsx, Hsy. rewrite Hdx in Hsx. rewrite Hdy in Hsy.
    simpl in Hsx, Hsy. congruence. }
  unfold pack. destruct (normalized_of <$> images) as [|t ts] eqn:Hts.
  { destruct (Hmixed []). constructor. }
  destruct (same_shape (shape t) ts) eqn:Hsame; [|done].
  destruct (Hmixed (shape t)). constructor; [done|].
  by apply same_shape_Forall.
Qed.

(** X12. A batch of pictures of one size whose channel values do not fill
    a whole number of 224 by 224 by 3 images is not served: the reshape
    fails. *)
Theorem misfit_sizes_fail (images : list bytes) (s : list nat) :
  Forall (fun x => ∃ image, decode_jpeg x 3 = Some image ∧
                            shape image = s ∧ tensor_wf image) images →
  (length images * numel s) `mod` numel image_shape ≠ 0 →
  serve "predict" (request images) = Raise (InvalidArgumentError Reshape).
Proof.
  intros Hall Hmod. rewrite serve_predictions.
  unfold Estimator.predictions_of, map_fn. csimpl.
  rewrite map_result_decodable; csimpl.
  2:{ eapply Forall_impl; [exact Hall|]. intros x (image & -> & _). eauto. }
  assert (images ≠ []) as Hne.
  { intros ->. apply Hmod. cbn [length]. rewrite Nat.mul_0_l.
    apply Nat.Div0.mod_0_l. }
  rewrite (pack_uniform s).
  2:{ by destruct images. }
  2:{ apply Forall_fmap. eapply Forall_impl; [exact Hall|].
      intros x (image & Hx & Hs & _). simpl. by rewrite Hx. }
  csimpl. unfold stack.
  match goal with |- context [reshape ?t ?sh] =>
    destruct (reshape t sh) as [t'|e] eqn:Hr end; csimpl.
  - apply (reshape_batch_inv _ _ _ _ 3) in Hr as (n & _ & Hlen);
      [|unfold Estimator._DEFAULT_IMAGE_SIZE; lia..].
    cbn [data] in Hlen. rewrite (length_concat_uniform (numel s)) in Hlen.
    + rewrite !length_fmap in Hlen. rewrite Hlen in Hmod.
      by rewrite Nat.Div0.mod_mul in Hmod.
    + rewrite <- list_fmap_compose. apply Forall_fmap.
      eapply Forall_impl; [exact Hall|].
      intros x (image & Hx & Hs & Hwf). simpl. rewrite Hx.
      cbn [data tensor_map]. rewrite length_map.
      unfold tensor_wf in Hwf. by rewrite Hwf, Hs.
  - by rewrite (reshape_Raise _ _ _ Hr).
Qed.


(** X14. The normalization loses nothing: every channel value is
    [(p + 0.5) * 255] for its normalized value [p], and two streams with
    the same normalized image decode to the same image. *)
Theorem normalization_invertible (x : bytes) (image : tensor byte) :
  decode_jpeg x 3 = Some image →
  ∃ normalized,
    preprocess_image x = Ok normalized ∧
    Forall2 (fun v p => to_float v = ((p + 0.5) * 255)%R)
      (data image) (data normalized) ∧
    ∀ y, preprocess_image y = Ok normalized → decode_jpeg y 3 = Some image.
Proof.
  intros Hx. unfold Estimator.preprocess_image. rewrite Hx.
  eexists. split; [reflexivity|]. split.
  - cbn [data tensor_map]. apply Forall2_fmap_r, Forall_Forall2_diag.
    apply Forall_forall. intros v _. simpl. lra.
  - intros y. destruct (decode_jpeg y 3) as [image'|]; [|done].
    intros [= Hshape Hdata]. destruct image, image'. simpl in *.
    f_equal. f_equal; [done|].
    eapply (list_fmap_eq_inj
              (fun v => (to_float v / 255.0 - 0.5)%R)); [|exact Hdata].
    intros v w Hvw. apply to_float_inj. lra.
Qed.

Lemma serve_rowwise (score : list R -> list R) (images : list bytes) :
  images ≠ [] → Forall valid_image images →
  Estimator.network_rowwise imagenet_resnet_v2 score →
  (∀ image, length (score image) = Estimator._LABEL_CLASSES) →
  serve "predict" (request images) =
  Ok {[ "classes" :=
          Int32s ((fun x => (top_k_entries (score (pixels x)) TOP_K).*2)
                    <$> images);
        "probabilities" :=
          Floats ((fun x =>
                     softmax_row (top_k_entries (score (pixels x)) TOP_K).*1)
                    <$> images) ]}.
Proof.
  intros Hne Hv Hrow Hscore. rewrite serve_rows; [|done..|].
  - rewrite (logits_of_rowwise _ _ score) by done. unfold softmax.
    by rewrite <- !list_fmap_compose.
  - rewrite (logits_of_rowwise _ _ score) by done.
    apply classes_cover_top_k. rewrite !Forall_fmap.
    apply Forall_forall. intros x _. apply Hscore.
Qed.

(** X15. Batching is transparent when the network scores every image on
    its own: the response to two batches of at least one admitted image
    each, sent as one, is the response to the first followed by the
    response to the second. *)
Theorem batches_concatenate (score : list R -> list R)
    (images1 images2 : list bytes) :
  images1 ≠ [] → images2 ≠ [] →
  Forall valid_image images1 → Forall valid_image images2 →
  Estimator.network_rowwise imagenet_resnet_v2 score →
  (∀ image, length (score image) = Estimator._LABEL_CLASSES) →
  ∃ classes1 probabilities1 classes2 probabilities2,
    serve "predict" (request images1) =
      Ok {[ "classes" := Int32s classes1;
            "probabilities" := Floats probabilities1 ]} ∧
    serve "predict" (request images2) =
      Ok {[ "classes" := Int32s classes2;
            "probabilities" := Floats probabilities2 ]} ∧
    serve "predict" (request (images1 ++ images2)) =
      Ok {[ "classes" := Int32s (classes1 ++ classes2);
            "probabilities" := Floats (probabilities1 ++ probabilities2) ]}.
Proof.
  intros Hne1 Hne2 Hv1 Hv2 Hrow Hscore. eexists _, _, _, _.
  split; [by apply (serve_rowwise score)|].
  split; [by apply (serve_rowwise score)|].
  rewrite (serve_rowwise score); [| |by apply Forall_app|done..].
  - by rewrite !fmap_app.
  - by destruct images1.
Qed.
End batch_facts.

(** ** Paths *)

Lemma append_assoc (a b c : string) : (a +:+ b) +:+ c = a +:+ (b +:+ c).
Proof.
  induction a as [|x a IH]; [done|].
  change (String x ((a +:+ b) +:+ c) = String x (a +:+ (b +:+ c))).
  by rewrite IH.
Qed.

Lemma append_String (x : ascii) (a b : string) :
  String x a +:+ b = String x (a +:+ b).
Proof. reflexivity. Qed.

Lemma has_slash_append (a b : string) :
  has_slash (a +:+ b) = has_slash a || has_slash b.
Proof.
  induction a as [|x a IH]; [done|].
  rewrite append_String. simpl. rewrite IH. by rewrite orb_assoc.
Qed.

Lemma dir_prefixes_slashless (acc p : string) :
  has_slash p = false → dir_prefixes acc p = [acc +:+ p].
Proof.
  revert acc. induction p as [|c p IH]; intros acc Hp; simpl in *.
  - by rewrite append_empty_r.
  - apply orb_false_iff in Hp as [Hc Hp]. rewrite Hc.
    rewrite IH by done. by rewrite append_char_assoc.
Qed.

Lemma dir_prefixes_append (acc p q : string) :
  has_slash p = false →
  dir_prefixes acc (p +:+ String "/" q) =
  (acc +:+ p) :: dir_prefixes (acc +:+ p +:+ "/") q.
Proof.
  revert acc. induction p as [|c p IH]; intros acc Hp; simpl in *.
  - by rewrite append_empty_r.
  - apply orb_false_iff in Hp as [Hc Hp]. rewrite append_String. simpl.
    rewrite Hc, IH by done. by rewrite !append_char_assoc.
Qed.

Lemma pretty_N_go_slashless (x : N) (s : string) :
  has_slash s = false → has_slash (pretty_N_go x s) = false.
Proof.
  revert s. induction (N.lt_wf_0 x) as [x _ IH]; intros s Hs.
  assert (x = 0 ∨ 0 < x)%N as [->|Hx] by lia.
  - by rewrite pretty_N_go_0.
  - rewrite pretty_N_go_step by done. apply IH.
    { by apply N.div_lt. }
    simpl. rewrite Hs. unfold pretty_N_char. by repeat case_match.
Qed.

(** The decimal name of a version holds no separator. *)
Lemma str_slashless (n : nat) : has_slash (Keras.str n) = false.
Proof.
  unfold Keras.str, pretty, pretty_nat, pretty, pretty_N.
  case_decide; [done|]. by apply pretty_N_go_slashless.
Qed.

Lemma append_slash_inj (a b x y : string) :
  has_slash a = false → has_slash b = false →
  a +:+ String "/" x = b +:+ String "/" y → a = b ∧ x = y.
Proof.
  revert b. induction a as [|c a IH]; intros [|d b] Ha Hb; simpl in *.
  - by intros [= ->].
  - apply orb_false_iff in Hb as [Hd _]. rewrite append_String.
    intros [= <- _]. done.
  - apply orb_false_iff in Ha as [Hc _]. rewrite append_String.
    intros [= -> _]. done.
  - apply orb_false_iff in Ha as [_ Ha]. apply orb_false_iff in Hb as [_ Hb].
    rewrite !append_String. intros [= -> Heq].
    destruct (IH b Ha Hb Heq) as [-> ->]. done.
Qed.

(** ** What an export writes *)

Lemma make_dirs_notin (ds : list string) (fs : gmap string node) (p : string) :
  p ∉ ds → foldl make_dir fs ds !! p = fs !! p.
Proof.
  revert fs. induction ds as [|d ds IH]; intros fs Hp; simpl; [done|].
  apply not_elem_of_cons in Hp as [Hne Hp]. rewrite IH by done.
  unfold make_dir. destruct (fs !! d); [done|]. by rewrite lookup_insert_ne.
Qed.

Lemma make_dirs_keep_entry (ds : list string) (fs : gmap string node)
    (p : string) (n : node) :
  fs !! p = Some n → foldl make_dir fs ds !! p = Some n.
Proof.
  revert fs. induction ds as [|d ds IH]; intros fs Hp; simpl; [done|].
  apply IH. unfold make_dir. destruct (fs !! d) eqn:Hd; [done|].
  rewrite lookup_insert_ne; [done|]. intros ->. congruence.
Qed.

Lemma make_dirs_new (ds : list string) (fs : gmap string node) (p : string) :
  p ∈ ds → fs !! p = None → foldl make_dir fs ds !! p = Some Directory.
Proof.
  revert fs. induction ds as [|d ds IH]; intros fs Hp Hnone; [set_solver|].
  simpl. destruct (decide (d = p)) as [->|Hne].
  - apply make_dirs_keep_entry. unfold make_dir. rewrite Hnone.
    apply lookup_insert_eq.
  - apply elem_of_cons in Hp as [->|Hp]; [done|]. apply IH; [done|].
    unfold make_dir. destruct (fs !! d); [done|].
    by rewrite lookup_insert_ne.
Qed.

Lemma path_join_ne_self (d x : string) : d ≠ path_join d x.
Proof.
  unfold path_join. intros Heq.
  rewrite <- (append_empty_r d) in Heq at 1.
  by apply String.app_inj in Heq.
Qed.

Lemma path_join_assoc (d x y : string) :
  path_join (path_join d x) y = path_join d (path_join x y).
Proof. unfold path_join. by rewrite !append_assoc. Qed.

Lemma path_join_inj (d x y : string) : path_join d x = path_join d y → x = y.
Proof.
  unfold path_join. intros Heq%String.app_inj. by injection Heq.
Qed.

Lemma variables_path (d ext : string) :
  path_join (path_join d "variables") "variables" +:+ ext =
  path_join d (path_join "variables" "variables" +:+ ext).
Proof. unfold path_join. by rewrite !append_assoc. Qed.

(** The file system an export to a fresh directory leaves behind. *)
Lemma export_to_fresh_eq (top_k_probs top_k_classes : TensorInfo)
    (d : string) (fs : gmap string node) :
  fs !! d = None →
  Keras.export_to top_k_probs top_k_classes d fs =
  (Ok (path_join d "saved_model.pb"),
   <[path_join d "saved_model.pb" :=
       SavedModelFile
         [{| tags := [Keras.SERVING];
             signature_def :=
               Keras.signature_def_map top_k_probs top_k_classes |}]]>
     (<[path_join (path_join d "variables") "variables"
          +:+ ".data-00000-of-00001" := VariablesFile]>
        (<[path_join (path_join d "variables") "variables" +:+ ".index" :=
             VariablesFile]>
           (foldl make_dir
              (foldl make_dir fs (dir_prefixes EmptyString d))
              (dir_prefixes EmptyString (path_join d "variables")))))).
Proof.
  intros Hdir. unfold Keras.export_to, Keras.new_builder, file_exists.
  unfold mbind, io_bind.
  rewrite bool_decide_false by (rewrite Hdir; by intros []).
  reflexivity.
Qed.

Lemma serving_dir_split (version_number : nat) :
  Keras.serving_dir version_number =
  "keras_resnet_servable" +:+ String "/" (Keras.str version_number).
Proof. reflexivity. Qed.

Lemma serving_dir_prefixes (version_number : nat) (x : string) :
  has_slash x = false →
  dir_prefixes EmptyString (path_join (Keras.serving_dir version_number) x) =
  ["keras_resnet_servable"; Keras.serving_dir version_number;
   path_join (Keras.serving_dir version_number) x].
Proof.
  intros Hx.
  assert (path_join (Keras.serving_dir version_number) x =
          "keras_resnet_servable" +:+
          String "/" (Keras.str version_number +:+ String "/" x)) as Hpath.
  { unfold path_join. rewrite serving_dir_split, append_assoc.
    by rewrite append_String. }
  rewrite Hpath at 1.
  rewrite dir_prefixes_append by done. f_equal.
  rewrite dir_prefixes_append by apply str_slashless. f_equal.
  rewrite dir_prefixes_slashless by done.
  rewrite Hpath. f_equal. by rewrite !append_assoc.
Qed.

Lemma serving_dir_prefixes_self (version_number : nat) :
  dir_prefixes EmptyString (Keras.serving_dir version_number) =
  ["keras_resnet_servable"; Keras.serving_dir version_number].
Proof.
  rewrite serving_dir_split.
  rewrite dir_prefixes_append by done. f_equal.
  rewrite dir_prefixes_slashless by apply str_slashless.
  reflexivity.
Qed.

Lemma version_path (version_number : nat) (x : string) :
  path_join (Keras.serving_dir version_number) x =
  "keras_resnet_servable" +:+
  String "/" (Keras.str version_number +:+ String "/" x).
Proof.
  unfold path_join. rewrite serving_dir_split, append_assoc.
  by rewrite append_String.
Qed.

Lemma serving_dir_inj (v v' : nat) :
  Keras.serving_dir v = Keras.serving_dir v' → v = v'.
Proof.
  rewrite !serving_dir_split. intros Heq%String.app_inj.
  injection Heq as Heq. by apply (inj pretty) in Heq.
Qed.

Lemma serving_dir_ne_path (v v' : nat) (x : string) :
  Keras.serving_dir v ≠ path_join (Keras.serving_dir v') x.
Proof.
  rewrite version_path, serving_dir_split. intros Heq%String.app_inj.
  injection Heq as Heq. pose proof (str_slashless v) as Hv.
  rewrite Heq, has_slash_append in Hv. simpl in Hv.
  by rewrite orb_true_r in Hv.
Qed.

Lemma version_paths_disjoint (v v' : nat) (x y : string) :
  v ≠ v' →
  path_join (Keras.serving_dir v) x ≠ path_join (Keras.serving_dir v') y.
Proof.
  intros Hne. rewrite !version_path. intros Heq%String.app_inj.
  injection Heq as Heq.
  apply append_slash_inj in Heq as [Heq _]; [|apply str_slashless..].
  by apply (inj pretty) in Heq.
Qed.

Lemma root_ne_serving_dir (v : nat) :
  "keras_resnet_servable" ≠ Keras.serving_dir v.
Proof.
  rewrite serving_dir_split. intros Heq.
  rewrite <- (append_empty_r "keras_resnet_servable") in Heq at 1.
  by apply String.app_inj in Heq.
Qed.

Lemma root_ne_version_path (v : nat) (x : string) :
  "keras_resnet_servable" ≠ path_join (Keras.serving_dir v) x.
Proof.
  rewrite version_path. intros Heq.
  rewrite <- (append_empty_r "keras_resnet_servable") in Heq at 1.
  by apply String.app_inj in Heq.
Qed.

(** The entries an export to the directory of a version can touch. *)
Lemma export_to_version_frame (top_k_probs top_k_classes : TensorInfo)
    (v : nat) (fs : gmap string node) :
  fs !! Keras.serving_dir v = None →
  ∃ fs',
    Keras.export_to top_k_probs top_k_classes (Keras.serving_dir v) fs =
      (Ok (path_join (Keras.serving_dir v) "saved_model.pb"), fs') ∧
    ∀ p,
      p ≠ "keras_resnet_servable" →
      p ≠ Keras.serving_dir v →
      (∀ x, p ≠ path_join (Keras.serving_dir v) x) →
      fs' !! p = fs !! p.
Proof.
  intros Hdir. eexists. split; [by apply export_to_fresh_eq|].
  intros p Hroot Hself Hunder.
  rewrite lookup_insert_ne by (intros Heq; by apply (Hunder "saved_model.pb")).
  rewrite !variables_path.
  rewrite !lookup_insert_ne by (intros Heq; by eapply Hunder).
  rewrite !make_dirs_notin; [done|..].
  - rewrite serving_dir_prefixes_self.
    rewrite !not_elem_of_cons. split_and!; [done..|apply not_elem_of_nil].
  - rewrite serving_dir_prefixes by done.
    rewrite !not_elem_of_cons.
    split_and!; [done|done|apply Hunder|apply not_elem_of_nil].
Qed.

(** X16. An export to the directory of a version that does not exist,
    under a root that is a directory when it exists, succeeds and leaves a
    complete bundle: the root and the version directory, a variables
    directory under it, and the model file, which holds one meta graph
    tagged ['serve'] whose only signature is ['predict']; the path of the
    model file is returned. *)
Theorem export_writes_bundle (top_k_probs top_k_classes : TensorInfo)
    (version_number : nat) (fs : gmap string node) :
  (∀ n, fs !! "keras_resnet_servable" = Some n → n = Directory) →
  fs !! Keras.serving_dir version_number = None →
  ∃ fs',
    Keras.export_to top_k_probs top_k_classes
      (Keras.serving_dir version_number) fs =
      (Ok (path_join (Keras.serving_dir version_number) "saved_model.pb"),
       fs') ∧
    fs' !! "keras_resnet_servable" = Some Directory ∧
    fs' !! Keras.serving_dir version_number = Some Directory ∧
    is_Some (fs' !! path_join (Keras.serving_dir version_number)
                      "variables") ∧
    fs' !! path_join (Keras.serving_dir version_number) "saved_model.pb" =
      Some (SavedModelFile
              [{| tags := ["serve"];
                  signature_def :=
                    {[ "predict" :=
                         Keras.signature top_k_probs top_k_classes ]} |}]).
Proof.
  intros Hroot Hdir. set (d := Keras.serving_dir version_number) in *.
  eexists. split; [by apply export_to_fresh_eq|].
  assert (∀ (m : gmap string node) p n x v,
    m !! p = Some n → p ≠ path_join d x →
    <[path_join d x := v]> m !! p = Some n) as Hins.
  { intros m p n x v Hp Hne. by rewrite lookup_insert_ne. }
  rewrite !variables_path. split_and!.
  - apply Hins; [|apply root_ne_version_path].
    apply Hins; [|apply root_ne_version_path].
    apply Hins; [|apply root_ne_version_path].
    apply make_dirs_keep_entry.
    destruct (fs !! "keras_resnet_servable") as [n|] eqn:Hr.
    + apply make_dirs_keep_entry. by rewrite <- (Hroot n eq_refl).
    + apply make_dirs_new; [|done]. unfold d.
      rewrite serving_dir_prefixes_self. by left.
  - apply Hins; [|apply path_join_ne_self].
    apply Hins; [|apply path_join_ne_self].
    apply Hins; [|apply path_join_ne_self].
    apply make_dirs_keep_entry, make_dirs_new; [|done].
    apply (dir_prefixes_last EmptyString d).
  - rewrite !lookup_insert_ne by by intros Heq%path_join_inj.
    apply make_dirs_create.
    apply (dir_prefixes_last EmptyString (path_join d "variables")).
  - apply lookup_insert_eq.
Qed.

(** X17. An export to the directory of a fresh version, under a root that
    is a directory when it exists, changes no entry that exists outside
    that directory; directories on the way are created only where there is
    none. *)
Theorem export_keeps_existing_entries
    (top_k_probs top_k_classes : TensorInfo)
    (version_number : nat) (fs : gmap string node) (p : string) (n : node) :
  (∀ n, fs !! "keras_resnet_servable" = Some n → n = Directory) →
  fs !! Keras.serving_dir version_number = None →
  fs !! p = Some n →
  (∀ x, p ≠ path_join (Keras.serving_dir version_number) x) →
  ∃ path fs',
    Keras.export_to top_k_probs top_k_classes
      (Keras.serving_dir version_number) fs = (Ok path, fs') ∧
    fs' !! p = Some n.
Proof.
  intros _ Hdir Hp Hunder. eexists _, _.
  split; [by apply export_to_fresh_eq|].
  rewrite !variables_path, !lookup_insert_ne by apply not_eq_sym, Hunder.
  by apply make_dirs_keep_entry, make_dirs_keep_entry.
Qed.

(** X18. An export to the directory of a fresh version, under a root that
    is a directory when it exists, touches that directory, what lies under
    it and the root [keras_resnet_servable], and nothing else. *)
Theorem export_touches_own_version_only
    (top_k_probs top_k_classes : TensorInfo)
    (version_number : nat) (fs : gmap string node) :
  (∀ n, fs !! "keras_resnet_servable" = Some n → n = Directory) →
  fs !! Keras.serving_dir version_number = None →
  ∃ path fs',
    Keras.export_to top_k_probs top_k_classes
      (Keras.serving_dir version_number) fs = (Ok path, fs') ∧
    ∀ p,
      p ≠ "keras_resnet_servable" →
      p ≠ Keras.serving_dir version_number →
      (∀ x, p ≠ path_join (Keras.serving_dir version_number) x) →
      fs' !! p = fs !! p.
Proof.
  intros _ Hdir.
  destruct (export_to_version_frame top_k_probs top_k_classes _ _ Hdir)
    as (fs' & Hexport & Hframe).
  by eexists _, fs'.
Qed.

(** X19. Version numbers keep their bundles apart: under a root that is a
    directory when it exists, two different fresh versions are exported
    one after the other without failure, to different model files, and the
    second export changes neither the directory of the first version nor
    anything under it. *)
Theorem versions_export_independently
    (top_k_probs top_k_classes : TensorInfo)
    (v v' : nat) (fs : gmap string node) :
  (∀ n, fs !! "keras_resnet_servable" = Some n → n = Directory) →
  v ≠ v' →
  fs !! Keras.serving_dir v = None →
  fs !! Keras.serving_dir v' = None →
  ∃ path1 fs1 path2 fs2,
    Keras.export_to top_k_probs top_k_classes (Keras.serving_dir v) fs
      = (Ok path1, fs1) ∧
    Keras.export_to top_k_probs top_k_classes (Keras.serving_dir v') fs1
      = (Ok path2, fs2) ∧
    path1 ≠ path2 ∧
    fs2 !! Keras.serving_dir v = fs1 !! Keras.serving_dir v ∧
    ∀ x, fs2 !! path_join (Keras.serving_dir v) x
         = fs1 !! path_join (Keras.serving_dir v) x.
Proof.
  intros _ Hne Hv Hv'.
  destruct (export_to_version_frame top_k_probs top_k_classes _ _ Hv)
    as (fs1 & Hexport1 & Hframe1).
  assert (fs1 !! Keras.serving_dir v' = None) as Hv1'.
  { rewrite Hframe1; [done|..].
    - intros Heq. by apply (root_ne_serving_dir v').
    - intros Heq%serving_dir_inj. done.
    - intros x. apply serving_dir_ne_path. }
  destruct (export_to_version_frame top_k_probs top_k_classes _ _ Hv1')
    as (fs2 & Hexport2 & Hframe2).
  eexists _, fs1, _, fs2. split; [exact Hexport1|].
  split; [exact Hexport2|]. split_and!.
  - by apply version_paths_disjoint.
  - apply Hframe2.
    + intros Heq. by apply (root_ne_serving_dir v).
    + intros Heq%serving_dir_inj. done.
    + intros x. apply serving_dir_ne_path.
  - intros x. apply Hframe2.
    + intros Heq. by apply (root_ne_version_path v x).
    + intros Heq. symmetry in Heq. by apply serving_dir_ne_path in Heq.
    + intros y. by apply version_paths_disjoint.
Qed.

(** ** The further properties on the sample codecs and network *)

Lemma logit_shift_invariant_witness :
  ∃ values values' classes,
    top_k_row [1; 3; 3; 0; 2; 3; 5]%R Estimator.TOP_K
      = Ok (values, classes) ∧
    top_k_row ((fun x => (x + 2)%R) <$> [1; 3; 3; 0; 2; 3; 5]%R)
      Estimator.TOP_K = Ok (values', classes) ∧
    softmax_row values' = softmax_row values.
Proof.
  destruct (logit_shift_invariant [1; 3; 3; 0; 2; 3; 5]%R 2%R)
    as (values & values' & classes & H1 & H2 & _ & H3).
  - unfold Estimator.TOP_K. simpl. lia.
  - exists values, values', classes. repeat split; assumption.
Defined.

Lemma classes_of_full_softmax_witness :
  ∃ values full classes,
    top_k_row [1; 3; 3; 0; 2; 3; 5]%R Estimator.TOP_K
      = Ok (values, classes) ∧
    top_k_row (softmax_row [1; 3; 3; 0; 2; 3; 5]%R) Estimator.TOP_K
      = Ok (full, classes) ∧
    softmax_row values = (fun q => (q / Rsum full)%R) <$> full.
Proof.
  destruct (classes_of_full_softmax [1; 3; 3; 0; 2; 3; 5]%R)
    as (values & full & classes & H1 & H2 & _ & H3).
  - unfold Estimator.TOP_K. simpl. lia.
  - exists values, full, classes. repeat split; assumption.
Defined.

Lemma classes_distinct_in_range_witness :
  ∃ classes probabilities,
    Estimator.serve Sample.decode_jpeg Sample.imagenet_resnet_v2 "predict"
      (Estimator.request Sample.images) =
      Ok {[ "classes" := Int32s classes;
            "probabilities" := Floats probabilities ]} ∧
    Forall (fun cs => NoDup cs ∧ Forall (fun c => c ≤ 1000) cs) classes.
Proof.
  apply (classes_distinct_in_range Sample.decode_jpeg
           Sample.imagenet_resnet_v2 Sample.images).
  - discriminate.
  - repeat constructor; (eexists; split; [reflexivity|]; split;
      [reflexivity|apply length_replicate]).
  - exact Sample_shaped.
Defined.

Lemma probabilities_in_unit_interval_witness :
  ∃ classes probabilities,
    Estimator.serve Sample.decode_jpeg Sample.imagenet_resnet_v2 "predict"
      (Estimator.request Sample.images) =
      Ok {[ "classes" := Int32s classes;
            "probabilities" := Floats probabilities ]} ∧
    Forall (Forall (fun p => (0 <= p <= 1)%R)) probabilities.
Proof.
  apply (probabilities_in_unit_interval Sample.decode_jpeg
           Sample.imagenet_resnet_v2 Sample.images).
  - discriminate.
  - repeat constructor; (eexists; split; [reflexivity|]; split;
      [reflexivity|apply length_replicate]).
  - exact Sample_shaped.
Defined.

Lemma first_class_is_argmax_witness :
  ∃ classes probabilities,
    Estimator.serve Sample.decode_jpeg Sample.imagenet_resnet_v2 "predict"
      (Estimator.request Sample.images) =
      Ok {[ "classes" := Int32s classes;
            "probabilities" := Floats probabilities ]} ∧
    ∀ i row,
      Estimator.logits_of Sample.decode_jpeg Sample.imagenet_resnet_v2
        Sample.images !! i = Some row →
      ∃ c0 cs v0,
        classes !! i = Some (c0 :: cs) ∧
        row !! c0 = Some v0 ∧
        ∀ c v, row !! c = Some v → (v <= v0)%R ∧ (v = v0 → c0 ≤ c).
Proof.
  apply (first_class_is_argmax Sample.decode_jpeg
           Sample.imagenet_resnet_v2 Sample.images).
  - discriminate.
  - repeat constructor; (eexists; split; [reflexivity|]; split;
      [reflexivity|apply length_replicate]).
  - exact Sample_shaped.
Defined.

Lemma probabilities_from_classes_witness :
  ∃ classes probabilities,
    Estimator.serve Sample.decode_jpeg Sample.imagenet_resnet_v2 "predict"
      (Estimator.request Sample.images) =
      Ok {[ "classes" := Int32s classes;
            "probabilities" := Floats probabilities ]} ∧
    ∀ i row,
      Estimator.logits_of Sample.decode_jpeg Sample.imagenet_resnet_v2
        Sample.images !! i = Some row →
      ∃ cs,
        classes !! i = Some cs ∧
        let logit c := default 0%R (row !! c) in
        probabilities !! i =
          Some ((fun c => (exp (logit c)
                           / Rsum ((fun c' => exp (logit c')) <$> cs))%R)
                  <$> cs).
Proof.
  apply (probabilities_from_classes Sample.decode_jpeg
           Sample.imagenet_resnet_v2 Sample.images).
  - discriminate.
  - repeat constructor; (eexists; split; [reflexivity|]; split;
      [reflexivity|apply length_replicate]).
  - exact Sample_shaped.
Defined.



Lemma processed_images_shape_witness :
  ∃ n,
    shape (Estimator.batch_tensor Sample.decode_jpeg Sample.images)
      = [n; 224; 224; 3] ∧
    tensor_wf (Estimator.batch_tensor Sample.decode_jpeg Sample.images).
Proof.
  destruct (processed_images_shape Sample.decode_jpeg Sample.images
              (Estimator.batch_tensor Sample.decode_jpeg Sample.images))
    as (n & Hshape & Hwf & _).
  - apply processed_valid; [discriminate|].
    repeat constructor; (eexists; split; [reflexivity|]; split;
      [reflexivity|apply length_replicate]).
  - exists n. split; assumption.
Defined.

Lemma mixed_sizes_fail_witness :
  Estimator.serve Sized.decode_jpeg Sample.imagenet_resnet_v2 "predict"
    (Estimator.request [Sized.small; Sized.wide]) =
  Raise (InvalidArgumentError TensorArrayStack).
Proof.
  eapply (mixed_sizes_fail Sized.decode_jpeg Sample.imagenet_resnet_v2
            [Sized.small; Sized.wide] Sized.small Sized.wide).
  - repeat constructor; eexists; reflexivity.
  - left.
  - right. left.
  - reflexivity.
  - reflexivity.
  - simpl. discriminate.
Defined.

Lemma misfit_sizes_fail_witness :
  Estimator.serve Sized.decode_jpeg Sample.imagenet_resnet_v2 "predict"
    (Estimator.request [Sized.small; Sized.small]) =
  Raise (InvalidArgumentError Reshape).
Proof.
  apply (misfit_sizes_fail Sized.decode_jpeg Sample.imagenet_resnet_v2
           [Sized.small; Sized.small] [2; 2; 3]).
  - repeat constructor; (eexists; split; [reflexivity|]; split;
      [reflexivity|apply length_replicate]).
  - vm_compute. discriminate.
Defined.


Lemma normalization_invertible_witness :
  ∃ normalized,
    Estimator.preprocess_image Sample.decode_jpeg [xff; xd8; x10]
      = Ok normalized ∧
    ∀ y, Estimator.preprocess_image Sample.decode_jpeg y = Ok normalized →
         Sample.decode_jpeg y 3 = Sample.decode_jpeg [xff; xd8; x10] 3.
Proof.
  destruct (normalization_invertible Sample.decode_jpeg [xff; xd8; x10]
              _ eq_refl)
    as (normalized & Hok & _ & Hinv).
  exists normalized. split; assumption.
Defined.

Lemma batches_concatenate_witness :
  ∃ classes1 probabilities1 classes2 probabilities2,
    Estimator.serve Sample.decode_jpeg Sample.imagenet_resnet_v2 "predict"
      (Estimator.request Sample.images) =
      Ok {[ "classes" := Int32s classes1;
            "probabilities" := Floats probabilities1 ]} ∧
    Estimator.serve Sample.decode_jpeg Sample.imagenet_resnet_v2 "predict"
      (Estimator.request [[xff; xd8; x7f]]) =
      Ok {[ "classes" := Int32s classes2;
            "probabilities" := Floats probabilities2 ]} ∧
    Estimator.serve Sample.decode_jpeg Sample.imagenet_resnet_v2 "predict"
      (Estimator.request (Sample.images ++ [[xff; xd8; x7f]])) =
      Ok {[ "classes" := Int32s (classes1 ++ classes2);
            "probabilities" := Floats (probabilities1 ++ probabilities2) ]}.
Proof.
  apply (batches_concatenate Sample.decode_jpeg Sample.imagenet_resnet_v2
           (Sample.score Estimator._LABEL_CLASSES)).
  - discriminate.
  - discriminate.
  - repeat constructor; (eexists; split; [reflexivity|]; split;
      [reflexivity|apply length_replicate]).
  - repeat constructor; (eexists; split; [reflexivity|]; split;
      [reflexivity|apply length_replicate]).
  - intros inputs. reflexivity.
  - intros image. unfold Sample.score. rewrite length_fmap.
    apply length_seq.
Defined.

Lemma export_writes_bundle_witness :
  ∃ fs',
    Keras.export_to (placeholder DT_FLOAT [None; Some 5])
      (placeholder DT_INT32 [None; Some 5]) Keras.SERVING_DIR ∅ =
      (Ok (path_join Keras.SERVING_DIR "saved_model.pb"), fs') ∧
    fs' !! Keras.SERVING_DIR = Some Directory.
Proof.
  destruct (export_writes_bundle (placeholder DT_FLOAT [None; Some 5])
              (placeholder DT_INT32 [None; Some 5]) Keras.VERSION_NUMBER ∅)
    as (fs' & Hexport & _ & Hdir & _).
  - intros n. discriminate.
  - reflexivity.
  - exists fs'. split; assumption.
Defined.

Lemma export_keeps_existing_entries_witness :
  ∃ path fs',
    Keras.export_to (placeholder DT_FLOAT [None; Some 5])
      (placeholder DT_INT32 [None; Some 5]) (Keras.serving_dir 2)
      {[ "keras_resnet_servable/1/saved_model.pb" := SavedModelFile [] ]}
      = (Ok path, fs') ∧
    fs' !! "keras_resnet_servable/1/saved_model.pb" = Some (SavedModelFile []).
Proof.
  apply (export_keeps_existing_entries (placeholder DT_FLOAT [None; Some 5])
           (placeholder DT_INT32 [None; Some 5]) 2
           {[ "keras_resnet_servable/1/saved_model.pb" := SavedModelFile [] ]}).
  - intros n. discriminate.
  - reflexivity.
  - reflexivity.
  - intros x. apply (version_paths_disjoint 1 2 "saved_model.pb" x).
    discriminate.
Defined.

Lemma export_touches_own_version_only_witness :
  ∃ path fs',
    Keras.export_to (placeholder DT_FLOAT [None; Some 5])
      (placeholder DT_INT32 [None; Some 5]) (Keras.serving_dir 2)
      {[ "keras_resnet_servable/1" := Directory ]} = (Ok path, fs') ∧
    fs' !! "keras_resnet_servable/1" = Some Directory.
Proof.
  destruct (export_touches_own_version_only
              (placeholder DT_FLOAT [None; Some 5])
              (placeholder DT_INT32 [None; Some 5]) 2
              {[ "keras_resnet_servable/1" := Directory ]})
    as (path & fs' & Hexport & Hframe).
  - intros n. discriminate.
  - reflexivity.
  - exists path, fs'. split; [exact Hexport|].
    rewrite (Hframe "keras_resnet_servable/1").
    + reflexivity.
    + discriminate.
    + vm_compute. discriminate.
    + intros x. exact (serving_dir_ne_path 1 2 x).
Defined.

Lemma versions_export_independently_witness :
  ∃ path1 fs1 path2 fs2,
    Keras.export_to (placeholder DT_FLOAT [None; Some 5])
      (placeholder DT_INT32 [None; Some 5]) (Keras.serving_dir 1) ∅
      = (Ok path1, fs1) ∧
    Keras.export_to (placeholder DT_FLOAT [None; Some 5])
      (placeholder DT_INT32 [None; Some 5]) (Keras.serving_dir 2) fs1
      = (Ok path2, fs2) ∧
    path1 ≠ path2.
Proof.
  destruct (versions_export_independently
              (placeholder DT_FLOAT [None; Some 5])
              (placeholder DT_INT32 [None; Some 5]) 1 2 ∅)
    as (path1 & fs1 & path2 & fs2 & H1 & H2 & Hne & _).
  - intros n. discriminate.
  - discriminate.
  - reflexivity.
  - reflexivity.
  - exists path1, fs1, path2, fs2. repeat split; assumption.
Defined.
